(** * CAFBERIHT: a compile-time heterogeneous operation array

    A shallow embedding of [cafberiht_example.cpp].  The C++ program is a
    template metaprogram, so most of what it "does" happens while it is
    compiled.  The embedding therefore has two layers:

    - a compile-time layer, in the error monad [compiled]: template
      instantiation either succeeds with a value or stops at a diagnostic;
    - a run-time layer: the straight-line sequence of mixin calls that the
      fold expression in [cafberiht::impl] unrolls to, executed over an
      explicit state. *)

From stdpp Require Import base numbers list strings pretty sorting.

Local Open Scope Z_scope.

(** ** Fixed-width integers *)

(** [uint64_t] values are integers in [0, 2^64); conversion to [uint64_t]
    reduces modulo 2^64. *)
Definition to_uint64 (z : Z) : Z := z mod 2 ^ 64.

(** Conversion to [int] (32 bits, two's complement): the unique value
    congruent to the source modulo 2^32. *)
Definition to_int (z : Z) : Z := (z + 2 ^ 31) mod 2 ^ 32 - 2 ^ 31.

(** [std::numeric_limits<uint64_t>::max()] *)
Definition uint64_max : Z := 2 ^ 64 - 1.

(** ** The enumerator set *)

(** [enum class core_types] is a scoped enumeration whose underlying type is
    [int]: a value of the type is any [int], and the enumerators name the
    values 0, 1, 2, ... in declaration order.  The container is built by
    casting arbitrary aggregator entries to [core_types], so the type is
    modelled by its underlying value and the enumerators as named
    constants. *)
Module core_types.
Record t := Enum { underlying : Z }.

#[global] Instance eq_dec : EqDecision t.
Proof. solve_decision. Defined.

Definition attn_q : t := Enum 0.
Definition attn_k : t := Enum 1.
Definition attn_v : t := Enum 2.
Definition attn_output : t := Enum 3.
Definition attn_norm : t := Enum 4.
Definition ffn_gate : t := Enum 5.
Definition ffn_up : t := Enum 6.
Definition ffn_down : t := Enum 7.
Definition moe_gate : t := Enum 8.
Definition moe_experts_gate : t := Enum 9.
Definition moe_experts_up : t := Enum 10.
Definition moe_experts_down : t := Enum 11.
Definition ffn_norm : t := Enum 12.
Definition token_embd : t := Enum 13.
Definition rope_freqs : t := Enum 14.
Definition output_norm : t := Enum 15.
Definition output : t := Enum 16.
Definition end_of_weights : t := Enum 17.
Definition inp_tokens : t := Enum 18.
Definition inp_pos : t := Enum 19.
Definition inp_out_ids : t := Enum 20.
Definition cache_k : t := Enum 21.
Definition cache_v : t := Enum 22.
Definition kq_mask : t := Enum 23.
Definition benchmark_data : t := Enum 24.
Definition end_of_input_only : t := Enum 25.
Definition inp_embd_get_rows : t := Enum 26.
Definition end_of_global_inputs : t := Enum 27.
Definition norm_rms_norm : t := Enum 28.
Definition attn_norm_mul : t := Enum 29.
Definition qcur_mul_mat : t := Enum 30.
Definition qcur_reshape : t := Enum 31.
Definition qcur_rope : t := Enum 32.
Definition kcur_mul_mat : t := Enum 33.
Definition kcur_reshape : t := Enum 34.
Definition kcur_rope : t := Enum 35.
Definition vcur_mul_mat : t := Enum 36.
Definition k_cache_view : t := Enum 37.
Definition k_cache_view_copy : t := Enum 38.
Definition vcur_transpose : t := Enum 39.
Definition v_cache_view : t := Enum 40.
Definition v_cache_view_copy : t := Enum 41.
Definition v_view : t := Enum 42.
Definition k_view : t := Enum 43.
Definition q_permute : t := Enum 44.
Definition kq_mul_mat : t := Enum 45.
Definition kq_soft_max : t := Enum 46.
Definition kqv_mul_mat : t := Enum 47.
Definition kqv_merged_permute : t := Enum 48.
Definition kqv_merged_cont : t := Enum 49.
Definition kqv_out_mul_mat : t := Enum 50.
Definition ffn_inp_add : t := Enum 51.
Definition norm_pre_ffn_rms_norm : t := Enum 52.
Definition ffn_norm_mul : t := Enum 53.
Definition ffn_gate_mul_mat : t := Enum 54.
Definition ffn_silu : t := Enum 55.
Definition ffn_up_mul_mat : t := Enum 56.
Definition ffn_gate_par_mul : t := Enum 57.
Definition ffn_out_mul_mat : t := Enum 58.
Definition moe_inp_add : t := Enum 59.
Definition norm_pre_moe_rms_norm : t := Enum 60.
Definition moe_norm_mul : t := Enum 61.
Definition moe_router_mul_mat : t := Enum 62.
Definition moe_router_softmax : t := Enum 63.
Definition moe_expert_select : t := Enum 64.
Definition moe_expert_gate_mul_mat : t := Enum 65.
Definition moe_expert_silu : t := Enum 66.
Definition moe_expert_up_mul_mat : t := Enum 67.
Definition moe_expert_gate_par_mul : t := Enum 68.
Definition moe_expert_down_mul_mat : t := Enum 69.
Definition moe_expert_weighted_sum : t := Enum 70.
Definition layer_out_add : t := Enum 71.
Definition end_of_per_block : t := Enum 72.
Definition node_1016_get_rows : t := Enum 73.
Definition node_1017_get_rows : t := Enum 74.
Definition final_ffn_inp_add : t := Enum 75.
Definition final_norm_pre_rms_norm : t := Enum 76.
Definition final_ffn_norm_mul : t := Enum 77.
Definition final_ffn_gate_mul_mat : t := Enum 78.
Definition final_ffn_silu : t := Enum 79.
Definition final_ffn_up_mul_mat : t := Enum 80.
Definition final_ffn_gate_par_mul : t := Enum 81.
Definition final_ffn_out_mul_mat : t := Enum 82.
Definition final_moe_inp_add : t := Enum 83.
Definition final_norm_pre_moe_rms_norm : t := Enum 84.
Definition final_moe_norm_mul : t := Enum 85.
Definition final_moe_router_mul_mat : t := Enum 86.
Definition final_moe_router_softmax : t := Enum 87.
Definition final_moe_expert_select : t := Enum 88.
Definition final_moe_expert_gate_mul_mat : t := Enum 89.
Definition final_moe_expert_silu : t := Enum 90.
Definition final_moe_expert_up_mul_mat : t := Enum 91.
Definition final_moe_expert_gate_par_mul : t := Enum 92.
Definition final_moe_expert_down_mul_mat : t := Enum 93.
Definition final_moe_expert_weighted_sum : t := Enum 94.
Definition final_layer_out_add : t := Enum 95.
Definition final_norm_rms_norm : t := Enum 96.
Definition result_norm_mul : t := Enum 97.
Definition result_output_mul_mat : t := Enum 98.
Definition sample_tokens : t := Enum 99.
Definition count : t := Enum 100.

(** The enumerators in declaration order. *)
Definition enumerators : list t :=
  [attn_q; attn_k; attn_v; attn_output; attn_norm; ffn_gate; ffn_up; ffn_down;
   moe_gate; moe_experts_gate; moe_experts_up; moe_experts_down; ffn_norm; token_embd;
   rope_freqs; output_norm; output; end_of_weights; inp_tokens; inp_pos; inp_out_ids;
   cache_k; cache_v; kq_mask; benchmark_data; end_of_input_only; inp_embd_get_rows;
   end_of_global_inputs; norm_rms_norm; attn_norm_mul; qcur_mul_mat; qcur_reshape;
   qcur_rope; kcur_mul_mat; kcur_reshape; kcur_rope; vcur_mul_mat; k_cache_view;
   k_cache_view_copy; vcur_transpose; v_cache_view; v_cache_view_copy; v_view; k_view;
   q_permute; kq_mul_mat; kq_soft_max; kqv_mul_mat; kqv_merged_permute;
   kqv_merged_cont; kqv_out_mul_mat; ffn_inp_add; norm_pre_ffn_rms_norm; ffn_norm_mul;
   ffn_gate_mul_mat; ffn_silu; ffn_up_mul_mat; ffn_gate_par_mul; ffn_out_mul_mat;
   moe_inp_add; norm_pre_moe_rms_norm; moe_norm_mul; moe_router_mul_mat;
   moe_router_softmax; moe_expert_select; moe_expert_gate_mul_mat; moe_expert_silu;
   moe_expert_up_mul_mat; moe_expert_gate_par_mul; moe_expert_down_mul_mat;
   moe_expert_weighted_sum; layer_out_add; end_of_per_block; node_1016_get_rows;
   node_1017_get_rows; final_ffn_inp_add; final_norm_pre_rms_norm; final_ffn_norm_mul;
   final_ffn_gate_mul_mat; final_ffn_silu; final_ffn_up_mul_mat;
   final_ffn_gate_par_mul; final_ffn_out_mul_mat; final_moe_inp_add;
   final_norm_pre_moe_rms_norm; final_moe_norm_mul; final_moe_router_mul_mat;
   final_moe_router_softmax; final_moe_expert_select; final_moe_expert_gate_mul_mat;
   final_moe_expert_silu; final_moe_expert_up_mul_mat; final_moe_expert_gate_par_mul;
   final_moe_expert_down_mul_mat; final_moe_expert_weighted_sum; final_layer_out_add;
   final_norm_rms_norm; result_norm_mul; result_output_mul_mat; sample_tokens; count].

(** [static_cast<uint64_t>(e)]: the [int] is sign-extended. *)
Definition to_uint64 (e : t) : Z := to_uint64 (underlying e).

(** [static_cast<core_types>(v)] for a [uint64_t] [v]: converted to the
    underlying type first. *)
Definition of_uint64 (v : Z) : t := Enum (to_int v).
End core_types.

Abbreviation core_types := core_types.t.

(** ** The static diagnostic channel *)

Inductive cafberiht_errors :=
  | get_core_by_index_oob
  | invalid_base_cast
  | empty_cafberiht_bases_pack.

#[global] Instance cafberiht_errors_eq_dec : EqDecision cafberiht_errors.
Proof. solve_decision. Defined.

(** [template<auto... values> struct error_printer_val_inserter]: a type whose
    spelling carries the values. *)
Record error_printer_val_inserter := val_inserter { inserted : list Z }.

(** [static_assert_printer_impl<enum_error, values...>]: declared, never
    defined.  Naming a member of it is an error whose text spells the
    specialisation, that is the error kind and the inserted values. *)
Record static_assert_printer_impl := printer_impl {
  enum_error : cafberiht_errors;
  values : list error_printer_val_inserter
}.

(** ** Elements and tags *)

(** [std::integral_constant<uint64_t, v>]: the type is determined by [v]. *)
Record integral_constant := Integral_constant { value : Z }.

#[global] Instance integral_constant_eq_dec : EqDecision integral_constant.
Proof. solve_decision. Defined.

(** The non-type argument of [template<auto index> tag]: an enumerator or an
    unsigned 64-bit integer. *)
Inductive tag_index :=
  | enumerator (e : core_types)
  | unsigned_integer (n : Z).

Definition static_cast_uint64 (index : tag_index) : Z :=
  match index with
  | enumerator e => core_types.to_uint64 e
  | unsigned_integer n => to_uint64 n
  end.

(** [template<auto index> using tag =
      std::integral_constant<uint64_t, static_cast<uint64_t>(index)>] *)
Definition tag (index : tag_index) : integral_constant :=
  Integral_constant (static_cast_uint64 index).

(** [core_interface<enum_value_new>], instantiated at a [core_types] value as
    [get_cafberiht_array] does.  The type is determined by its argument. *)
Record core_interface := Core_interface { enum_value_new : core_types }.

#[global] Instance core_interface_eq_dec : EqDecision core_interface.
Proof. solve_decision. Defined.

#[global] Instance core_interface_inhabited : Inhabited core_interface :=
  populate (Core_interface (core_types.Enum 0)).

(** [static constexpr core_types enum_value{ enum_value_new }] *)
Definition enum_value (b : core_interface) : core_types := enum_value_new b.

(** A reference returned by element access designates one base-class
    subobject of the container, identified by its position in the bases
    pack.  Two references are to the same storage iff they are equal. *)
Inductive reference := base_subobject (position : nat).

(** ** Compilation outcomes *)

Inductive diagnostic :=
  | incomplete_type (t : static_assert_printer_impl)
  | static_assertion_failed
  | duplicate_base_class (b : core_interface)
  | no_viable_overload (t : integral_constant)
  | ambiguous_overload (t : integral_constant).

Inductive compiled (A : Type) :=
  | well_formed (a : A)
  | ill_formed (d : diagnostic).
Arguments well_formed {A} a.
Arguments ill_formed {A} d.

#[global] Instance compiled_ret : MRet compiled := @well_formed.
#[global] Instance compiled_bind : MBind compiled := λ A B f c,
  match c with
  | well_formed a => f a
  | ill_formed d => ill_formed d
  end.

(** [static_assert_printer<value, enum_error, values...>::impl]: the
    immediately invoked lambda names
    [static_assert_printer_impl<enum_error, values...>::nonexistent_value]
    when [value] is false. *)
Definition static_assert_printer (value : bool) (enum_error : cafberiht_errors)
    (values : list error_printer_val_inserter) : compiled bool :=
  if negb value
  then ill_formed (incomplete_type (printer_impl enum_error values))
  else well_formed true.

Definition static_assert (condition : compiled bool) : compiled unit :=
  b ← condition;
  if b : bool then well_formed () else ill_formed static_assertion_failed.

(** [core_elem_base<index, derived_type>]: the indexed-access overload each
    element contributes, keyed on [tag<index>]; it returns the element
    itself ([*static_cast<derived_type*>(this)]). *)
Module core_elem_base.
Definition key (derived_type : core_interface) : integral_constant :=
  tag (enumerator (enum_value_new derived_type)).
Definition operator_subscript (this : reference) : reference := this.
End core_elem_base.

(** ** The aggregator *)

(** [core_aggregator::values]: a value-initialised array of
    [cafberiht_width] entries in which the loop stores [x] at index [x].
    [cafberiht_width] comes from [config.hpp] and is a parameter here. *)
Definition core_aggregator (cafberiht_width : nat) : list Z :=
  foldl (λ return_values x, <[x := Z.of_nat x]> return_values)
        (replicate cafberiht_width 0) (seq 0 cafberiht_width).

(** ** The meta-container *)

Module cafberiht.
(** The specialisation [cafberiht<bases...>]. *)
Record t := Build { bases : list core_interface }.

(** [static constexpr uint64_t size{ sizeof...(bases) }] *)
Definition size (C : t) : Z := Z.of_nat (length (bases C)).

(** [index_transform_values]: array position -> enumerator value. *)
Definition index_transform_values (C : t) : list Z :=
  (λ b, core_types.to_uint64 (enum_value b)) <$> bases C.

(** The first duplicate in a list of direct bases, if any. *)
Fixpoint repeated_base (l : list core_interface) : option core_interface :=
  match l with
  | [] => None
  | b :: l => if bool_decide (b ∈ l) then Some b else repeated_base l
  end.

(** The member [static_assert] on [sizeof...(bases) > 0], with error kind
    [empty_cafberiht_bases_pack] and no inserted values. *)
Definition pack_not_empty (C : t) : compiled unit :=
  static_assert
    (static_assert_printer (0 <? Z.of_nat (length (bases C)))
                           empty_cafberiht_bases_pack []).

(** Instantiating the class definition: [struct cafberiht : public bases...]
    may not name one class twice as a direct base, and the member
    [static_assert] must hold.  (A pack with a repeated base is not empty,
    so at most one of the two checks fails.) *)
Definition class_definition (C : t) : compiled unit :=
  match repeated_base (bases C) with
  | Some b => ill_formed (duplicate_base_class b)
  | None => pack_not_empty C
  end.

(** [using bases::operator[]...]: the merged overload set, one overload per
    base, keyed on that base's tag and returning that base subobject. *)
Definition overload_set (C : t) : list (integral_constant * reference) :=
  imap (λ i b, (core_elem_base.key b,
                core_elem_base.operator_subscript (base_subobject i)))
       (bases C).

(** Subscripting the container with a tag object of type [t]: overload
    resolution over the merged set.  Distinct specialisations of
    [integral_constant] do not convert to one another, so a candidate is
    viable only when its key is the argument's type. *)
Definition operator_subscript (C : t) (t : integral_constant)
    : compiled reference :=
  match List.filter (λ o, bool_decide (o.1 = t)) (overload_set C) with
  | [] => ill_formed (no_viable_overload t)
  | [o] => well_formed o.2
  | _ :: _ :: _ => ill_formed (ambiguous_overload t)
  end.

(** The bodies of the member functions follow.  Each is what the member
    does once the class is complete; a use of the member on a container
    goes through [member_access] below, which instantiates the class
    definition first. *)
Definition get_core_by_enum (C : t) (enum_value : core_types)
    : compiled reference :=
  operator_subscript C
    (tag (unsigned_integer (core_types.to_uint64 enum_value))).

(** [index_new] and the table entries are [uint64_t] already: the two
    [static_cast<uint64_t>] in the body convert a type to itself. *)
Definition get_core_by_index (C : t) (index_new : Z) : compiled reference :=
  static_assert
    (static_assert_printer (index_new <? size C) get_core_by_index_oob
                           [val_inserter [index_new]]);;
  let index := index_transform_values C !!! Z.to_nat index_new in
  operator_subscript C (tag (unsigned_integer index)).

(** The loop of [get_index_by_enum], from counter value [x].  [None] means
    the fuel ran out before the loop ended. *)
Fixpoint get_index_by_enum_from (C : t) (enum_value : core_types)
    (fuel : nat) (x : Z) : option Z :=
  match fuel with
  | O => None
  | S fuel =>
      if x <? size C then
        if bool_decide
             (core_types.of_uint64 (index_transform_values C !!! Z.to_nat x)
              = enum_value)
        then Some x
        else get_index_by_enum_from C enum_value fuel (to_uint64 (x + 1))
      else Some uint64_max
  end.

Definition get_index_by_enum (C : t) (enum_value : core_types) : option Z :=
  get_index_by_enum_from C enum_value (S (length (bases C))) 0.

(** A use of a member of [cafberiht<bases...>], a member function called on
    an object or a static member named through the type, needs the complete
    class: the class definition is instantiated first, and the member is
    reached only if that compiles. *)
Definition member_access {X : Type} (C : t) (member : compiled X)
    : compiled X :=
  class_definition C;; member.
End cafberiht.

Abbreviation cafberiht := cafberiht.t.

(** [get_cafberiht_array_t<enum_type, aggregator_type, base_type>]: one base
    per index of [std::make_index_sequence<values.size()>]. *)
Definition get_cafberiht_array_t (aggregator_values : list Z) : cafberiht :=
  cafberiht.Build
    ((λ indices,
        Core_interface (core_types.of_uint64 (aggregator_values !!! indices)))
     <$> seq 0 (length aggregator_values)).

(** [get_cafberiht_type_at_enum<cafberiht_type, index>]: the type of the
    object [get_core_by_enum<index>] refers to, with reference and
    qualifiers removed.  The overload a base contributes returns that base
    as its [derived_type], so the type is the base at the position the
    reference designates. *)
Definition get_cafberiht_type_at_enum (cafberiht_type : cafberiht)
    (index : core_types) : compiled core_interface :=
  r ← cafberiht.get_core_by_enum cafberiht_type index;
  match r with
  | base_subobject position =>
      well_formed (cafberiht.bases cafberiht_type !!! position)
  end.

(** ** The visitor protocol and the walk *)

(** A mixin template [mixin_type<base_type>]: a compile-time predicate
    [filter] and an action [impl], both selected by [base_type].  The action
    receives the container object and the walk's arguments by reference and
    may change anything reachable in the program state. *)
Module mixin_type.
Record t (object arg_types State : Type) := Build {
  filter : core_interface → bool;
  impl : core_interface → object → arg_types → State → State
}.
Arguments Build {object arg_types State} filter impl.
Arguments filter {object arg_types State} _ _.
Arguments impl {object arg_types State} _ _ _ _ _.
End mixin_type.

Abbreviation mixin_type := mixin_type.t.

Module walk.
Section walk.
Context {object arg_types State : Type}.
Variable mixin : mixin_type object arg_types State.

(** [std::is_base_of_v<base_type, cafberiht>] *)
Definition is_base_of (base_type : core_interface) (C : cafberiht) : bool :=
  bool_decide (base_type ∈ cafberiht.bases C).

(** [impl_internal_filtered<mixin_type, base_type>]: the code it expands
    to, as the list of mixin specialisations called (none or one). *)
Definition impl_internal_filtered (C : cafberiht) (base_type : core_interface)
    : compiled (list core_interface) :=
  if mixin_type.filter mixin base_type then
    static_assert
      (static_assert_printer (is_base_of base_type C) invalid_base_cast []);;
    well_formed [base_type]
  else well_formed [].

(** The fold expression over the comma operator: operands are expanded in
    pack order and evaluated left to right. *)
Fixpoint comma_fold (operands : list (compiled (list core_interface)))
    : compiled (list core_interface) :=
  match operands with
  | [] => well_formed []
  | operand :: operands =>
      first ← operand;
      rest ← comma_fold operands;
      well_formed (first ++ rest)
  end.

(** The straight-line call sequence [cafberiht::impl<mixin_type>] unrolls
    to. *)
Definition calls (C : cafberiht) : compiled (list core_interface) :=
  comma_fold (impl_internal_filtered C <$> cafberiht.bases C).

(** Running a call sequence: each call is
    [mixin_type<base_type>::impl( *this, args...)]. *)
Definition run (this : object) (args : arg_types)
    (sequence : list core_interface) (st : State) : State :=
  foldl (λ st base_type, mixin_type.impl mixin base_type this args st)
        st sequence.

(** [cafberiht::impl<mixin_type>(args...)] *)
Definition impl (C : cafberiht) : compiled (object → arg_types → State → State) :=
  sequence ← calls C;
  well_formed (λ this args, run this args sequence).
End walk.
End walk.

(** ** The worked harness *)

(** An lvalue of type [T] inside a program state. *)
Record lvalue (State T : Type) := Lvalue {
  load : State → T;
  store : T → State → State
}.
Arguments Lvalue {State T} load store.
Arguments load {State T} _ _.
Arguments store {State T} _ _ _.

Module harness.
Section harness.
(** The C library's [rand]: a hidden generator state, stepped by each call,
    and an [int] result. *)
Context {rand_state : Type}.
Variable rand : rand_state → Z * rand_state.

(** What a run of the program can touch outside [main]'s frame. *)
Record process := Process {
  generator : rand_state;
  cout : string
}.

(** [main]'s frame: the container's elements (one
    [kernel_iteration_count] each) and the accumulator [value]. *)
Record machine := Machine {
  cafberiht_val : list Z;
  value : Z;
  environment : process
}.

Definition cafberiht_val_lvalue : lvalue machine (list Z) :=
  Lvalue cafberiht_val
         (λ v m, Machine v (value m) (environment m)).

Definition value_lvalue : lvalue machine Z :=
  Lvalue value
         (λ v m, Machine (cafberiht_val m) v (environment m)).

Definition call_rand (m : machine) : Z * machine :=
  let '(r, g) := rand (generator (environment m)) in
  (r, Machine (cafberiht_val m) (value m)
              (Process g (cout (environment m)))).

Definition print (s : string) (m : machine) : machine :=
  Machine (cafberiht_val m) (value m)
          (Process (generator (environment m))
                   (cout (environment m) +:+ s)).

(** [addition_mixin<base_type>]:
    [filter] is [static_cast<uint64_t>(base_type::enum_value) % 2 == 0];
    [impl] is [output_value += rand()] on a [volatile uint64_t&]. *)
Definition addition_mixin
    : mixin_type (lvalue machine (list Z)) (lvalue machine Z) machine :=
  mixin_type.Build
    (λ base_type, core_types.to_uint64 (enum_value base_type) mod 2 =? 0)
    (λ _ _ output_value m,
       let '(r, m) := call_rand m in
       store output_value (to_uint64 (load output_value m + to_uint64 r)) m).

Definition endl : string := String (Ascii.ascii_of_nat 10) EmptyString.

(** [main], for a given [cafberiht_width]: compilation yields the program,
    which maps the process state at entry to the exit status and the
    process state at exit. *)
Definition main (cafberiht_width : nat) : compiled (process → Z * process) :=
  let cafberiht_type := get_cafberiht_array_t (core_aggregator cafberiht_width) in
  cafberiht.class_definition cafberiht_type;;
  impl ← walk.impl addition_mixin cafberiht_type;
  well_formed (λ p,
    let m := Machine (replicate (length (cafberiht.bases cafberiht_type)) 0) 0 p in
    let m := impl cafberiht_val_lvalue value_lvalue m in
    let m := print ("Final Value: " +:+ pretty (value m)
                    +:+ ", For Cafberiht Width of: "
                    +:+ pretty cafberiht_width +:+ endl) m in
    (0, environment m)).
End harness.
End harness.


(** ** Auxiliary notions used in the statements *)

(** The values a [core_types] object can hold. *)
Definition representable (e : core_types) : Prop :=
  - 2 ^ 31 ≤ core_types.underlying e < 2 ^ 31.

(** Every base of the container is the element type of a value that a
    [core_types] object can hold. *)
Definition bases_representable (C : cafberiht) : Prop :=
  Forall (λ b, representable (enum_value b)) (cafberiht.bases C).

(** What [get_index_by_enum] is to return for aggregator [A] and enumerator
    [e]: the first position holding [e], or the sentinel when there is
    none. *)
Definition first_position (A : list Z) (e : core_types) (r : Z) : Prop :=
  (∃ i : nat, (i < length A)%nat ∧ r = Z.of_nat i
     ∧ core_types.of_uint64 (A !!! i) = e
     ∧ ∀ j : nat, (j < i)%nat → core_types.of_uint64 (A !!! j) ≠ e)
  ∨ (r = 2 ^ 64 - 1
     ∧ ∀ i : nat, (i < length A)%nat → core_types.of_uint64 (A !!! i) ≠ e).

(** A mixin that admits nothing and whose action would change the state. *)
Definition reject_all : mixin_type unit unit nat :=
  mixin_type.Build (λ _, false) (λ _ _ _ st, S st).

(** Decimal numerals: one or more characters, all among 0 to 9. *)
Definition is_digit (c : Ascii.ascii) : bool :=
  ((48 <=? Ascii.nat_of_ascii c) && (Ascii.nat_of_ascii c <=? 57))%nat.

Fixpoint digits (s : string) : bool :=
  match s with
  | EmptyString => true
  | String c s => is_digit c && digits s
  end.

Definition decimal (s : string) : bool :=
  match s with
  | EmptyString => false
  | String _ _ => digits s
  end.

(** The results of [n] successive calls of [rand] from generator state [g],
    and the state they leave. *)
Fixpoint rand_draws {rand_state : Type} (rand : rand_state → Z * rand_state)
    (n : nat) (g : rand_state) : list Z * rand_state :=
  match n with
  | O => ([], g)
  | S n =>
      let '(r, g) := rand g in
      let '(rs, g) := rand_draws rand n g in
      (r :: rs, g)
  end.

Definition sum_Z (rs : list Z) : Z := foldr Z.add 0 rs.

Ltac projections :=
  cbn [harness.generator harness.environment harness.cafberiht_val
       harness.value harness.cout].

(** * Properties *)

(** ** Integer conversions *)

Lemma to_int_range z : - 2 ^ 31 ≤ to_int z < 2 ^ 31.
Proof. unfold to_int. pose proof (Z.mod_pos_bound (z + 2 ^ 31) (2 ^ 32)). lia. Qed.

Lemma to_uint64_range z : 0 ≤ to_uint64 z < 2 ^ 64.
Proof. unfold to_uint64. apply Z.mod_pos_bound. lia. Qed.

Lemma to_uint64_small z : 0 ≤ z < 2 ^ 64 → to_uint64 z = z.
Proof. unfold to_uint64. apply Z.mod_small. Qed.

Lemma to_uint64_idemp z : to_uint64 (to_uint64 z) = to_uint64 z.
Proof. apply to_uint64_small, to_uint64_range. Qed.

Lemma to_int_small z : - 2 ^ 31 ≤ z < 2 ^ 31 → to_int z = z.
Proof. intros H. unfold to_int. rewrite Z.mod_small; lia. Qed.

(** Sign extension loses nothing: distinct [int]s stay distinct. *)
Lemma to_uint64_int_inj z1 z2 :
  - 2 ^ 31 ≤ z1 < 2 ^ 31 → - 2 ^ 31 ≤ z2 < 2 ^ 31 →
  to_uint64 z1 = to_uint64 z2 → z1 = z2.
Proof.
  unfold to_uint64. intros H1 H2 H.
  change (2 ^ 64) with 18446744073709551616 in H.
  change (2 ^ 31) with 2147483648 in H1, H2.
  Z.div_mod_to_equations. lia.
Qed.

Lemma to_int_to_uint64 z : - 2 ^ 31 ≤ z < 2 ^ 31 → to_int (to_uint64 z) = z.
Proof.
  intros H. unfold to_int, to_uint64.
  change (2 ^ 64) with 18446744073709551616.
  change (2 ^ 32) with 4294967296.
  change (2 ^ 31) with 2147483648 in *.
  Z.div_mod_to_equations. lia.
Qed.

Lemma of_uint64_representable v : representable (core_types.of_uint64 v).
Proof. apply to_int_range. Qed.

Lemma of_to_uint64 e :
  representable e → core_types.of_uint64 (core_types.to_uint64 e) = e.
Proof.
  destruct e as [z]. unfold representable, core_types.of_uint64,
    core_types.to_uint64. simpl. intros H. f_equal. by apply to_int_to_uint64.
Qed.

Lemma core_types_to_uint64_inj e1 e2 :
  representable e1 → representable e2 →
  core_types.to_uint64 e1 = core_types.to_uint64 e2 → e1 = e2.
Proof.
  destruct e1 as [z1], e2 as [z2]. unfold representable, core_types.to_uint64.
  simpl. intros H1 H2 H. f_equal. eauto using to_uint64_int_inj.
Qed.

(** An aggregator entry that encodes an enumerator, that is a value below
    2^31, decodes to [e] exactly when it is [e]'s 64-bit value. *)
Lemma of_uint64_eq_iff v e :
  0 ≤ v < 2 ^ 31 → representable e →
  core_types.of_uint64 v = e ↔ v = core_types.to_uint64 e.
Proof.
  intros Hv He. split.
  - intros <-. unfold core_types.of_uint64, core_types.to_uint64. simpl.
    rewrite to_int_small by lia. rewrite to_uint64_small; lia.
  - intros ->. by apply of_to_uint64.
Qed.

Lemma enumerators_representable e :
  e ∈ core_types.enumerators → representable e.
Proof.
  revert e. apply Forall_forall.
  unfold representable, core_types.enumerators.
  repeat (apply Forall_cons; split; [simpl; lia |]). apply Forall_nil_2.
Qed.

(** ** The default aggregator *)

Lemma core_aggregator_loop (k : nat) (l : list Z) :
  (k ≤ length l)%nat →
  foldl (λ return_values x, <[x := Z.of_nat x]> return_values) l (seq 0 k)
  = (Z.of_nat <$> seq 0 k) ++ drop k l.
Proof.
  induction k as [|k IH]; intros Hk; [by rewrite drop_0|].
  rewrite seq_S, foldl_app, IH by lia. simpl.
  rewrite fmap_app. simpl.
  destruct (lookup_lt_is_Some_2 l k) as [y Hy]; [lia|].
  rewrite (drop_S _ _ _ Hy).
  rewrite insert_app_r_alt by (rewrite length_fmap, length_seq; lia).
  rewrite length_fmap, length_seq, Nat.sub_diag. simpl.
  by rewrite <- app_assoc.
Qed.

(** [values[i] = i] for every [i] below the width. *)
Lemma core_aggregator_values (cafberiht_width : nat) :
  core_aggregator cafberiht_width = Z.of_nat <$> seq 0 cafberiht_width.
Proof.
  unfold core_aggregator. rewrite core_aggregator_loop
    by (by rewrite length_replicate).
  rewrite drop_ge by (by rewrite length_replicate). apply app_nil_r.
Qed.

(** Entries that encode enumerators, that is values below 2^31, are pairwise
    distinct as enumerators when they are pairwise distinct as integers. *)
Lemma distinct_entries_distinct_enumerators (A : list Z) :
  Forall (λ v, 0 ≤ v < 2 ^ 31) A → NoDup A →
  NoDup (core_types.of_uint64 <$> A).
Proof.
  intros Hrange Hdistinct. apply NoDup_fmap_2_strong; [|done].
  intros x y Hx Hy. rewrite Forall_forall in Hrange.
  unfold core_types.of_uint64.
  pose proof (Hrange _ Hx). pose proof (Hrange _ Hy).
  rewrite !to_int_small by lia. by intros [= ?].
Qed.

(** ** The container type built from an aggregator *)

Section container_facts.
Implicit Types (A : list Z) (C : cafberiht) (i j : nat).

Lemma bases_get_cafberiht_array_t A :
  cafberiht.bases (get_cafberiht_array_t A)
  = (λ v, Core_interface (core_types.of_uint64 v)) <$> A.
Proof.
  apply list_eq. intros i. simpl. rewrite !list_lookup_fmap.
  destruct (A !! i) as [v|] eqn:Hi.
  - rewrite lookup_seq_lt by eauto using lookup_lt_Some. simpl.
    by rewrite (list_lookup_total_correct _ _ _ Hi).
  - rewrite lookup_seq_ge; [done|]. by apply lookup_ge_None.
Qed.

Lemma size_get_cafberiht_array_t A :
  cafberiht.size (get_cafberiht_array_t A) = Z.of_nat (length A).
Proof.
  unfold cafberiht.size.
  by rewrite bases_get_cafberiht_array_t, length_fmap.
Qed.

Lemma lookup_bases A i :
  (i < length A)%nat →
  cafberiht.bases (get_cafberiht_array_t A) !! i
  = Some (Core_interface (core_types.of_uint64 (A !!! i))).
Proof.
  intros Hi. rewrite bases_get_cafberiht_array_t, list_lookup_fmap.
  apply lookup_lt_is_Some in Hi as [v Hv].
  by rewrite Hv, (list_lookup_total_correct _ _ _ Hv).
Qed.

Lemma lookup_decoded A i :
  (i < length A)%nat →
  (core_types.of_uint64 <$> A) !! i = Some (core_types.of_uint64 (A !!! i)).
Proof.
  intros Hi. rewrite list_lookup_fmap.
  apply lookup_lt_is_Some in Hi as [v Hv].
  by rewrite Hv, (list_lookup_total_correct _ _ _ Hv).
Qed.

Lemma lookup_index_transform_values A i :
  (i < length A)%nat →
  cafberiht.index_transform_values (get_cafberiht_array_t A) !!! i
  = core_types.to_uint64 (core_types.of_uint64 (A !!! i)).
Proof.
  intros Hi. apply list_lookup_total_correct.
  unfold cafberiht.index_transform_values.
  by rewrite list_lookup_fmap, lookup_bases.
Qed.

(** The key of the overload a base contributes is the 64-bit value of its
    enumerator, and determines the enumerator. *)
Lemma key_of_uint64 v :
  core_elem_base.key (Core_interface (core_types.of_uint64 v))
  = Integral_constant (core_types.to_uint64 (core_types.of_uint64 v)).
Proof. done. Qed.

Lemma key_inj v1 v2 :
  core_elem_base.key (Core_interface (core_types.of_uint64 v1))
  = core_elem_base.key (Core_interface (core_types.of_uint64 v2)) →
  core_types.of_uint64 v1 = core_types.of_uint64 v2.
Proof.
  rewrite !key_of_uint64. intros [= H].
  eauto using core_types_to_uint64_inj, of_uint64_representable.
Qed.

(** [tag<e>] and [tag<static_cast<uint64_t>(e)>] are one type. *)
Lemma tag_unsigned_integer e :
  tag (unsigned_integer (core_types.to_uint64 e)) = tag (enumerator e).
Proof.
  unfold tag, static_cast_uint64, core_types.to_uint64.
  by rewrite to_uint64_idemp.
Qed.
End container_facts.

(** ** Overload resolution *)

Section resolution.
Context {X : Type} (p : X → bool).

Lemma filter_none (l : list X) :
  (∀ j y, l !! j = Some y → p y = false) → List.filter p l = [].
Proof.
  induction l as [|a l IH]; intros H; [done|]. simpl.
  rewrite (H 0%nat a) by done. apply IH. intros j y. apply (H (S j)).
Qed.

Lemma filter_single (l : list X) i x :
  l !! i = Some x → p x = true →
  (∀ j y, l !! j = Some y → p y = true → j = i) →
  List.filter p l = [x].
Proof.
  revert i. induction l as [|a l IH]; intros i Hi Hp Huniq; [done|].
  destruct i as [|i]; simpl in *.
  - injection Hi as ->. rewrite Hp. f_equal. apply filter_none.
    intros j y Hj. destruct (p y) eqn:Hy; [|done].
    by specialize (Huniq (S j) y Hj Hy).
  - destruct (p a) eqn:Ha.
    + by specialize (Huniq 0%nat a eq_refl Ha).
    + apply (IH i); [done..|]. intros j y Hj Hy.
      specialize (Huniq (S j) y Hj Hy). lia.
Qed.
End resolution.

(** A tag that is the key of exactly one base selects that base. *)
Lemma operator_subscript_unique (C : cafberiht) (t : integral_constant)
    (i : nat) (b : core_interface) :
  cafberiht.bases C !! i = Some b →
  core_elem_base.key b = t →
  (∀ j b', cafberiht.bases C !! j = Some b' → core_elem_base.key b' = t → j = i) →
  cafberiht.operator_subscript C t = well_formed (base_subobject i).
Proof.
  intros Hi Hkey Huniq. unfold cafberiht.operator_subscript.
  rewrite (filter_single _ (cafberiht.overload_set C) i
             (core_elem_base.key b, base_subobject i)); [done| | |].
  - unfold cafberiht.overload_set. by rewrite list_lookup_imap, Hi.
  - by apply bool_decide_eq_true.
  - intros j [k r]. unfold cafberiht.overload_set.
    rewrite list_lookup_imap. destruct (cafberiht.bases C !! j) as [b'|] eqn:Hj;
      [|done]. simpl. intros [= <- <-] Hk%bool_decide_eq_true. eauto.
Qed.

(** In a container whose enumerators are pairwise distinct, the tag of the
    [i]-th enumerator selects the [i]-th base. *)
Lemma operator_subscript_position (A : list Z) (i : nat) :
  NoDup (core_types.of_uint64 <$> A) → (i < length A)%nat →
  cafberiht.operator_subscript (get_cafberiht_array_t A)
    (tag (enumerator (core_types.of_uint64 (A !!! i))))
  = well_formed (base_subobject i).
Proof.
  intros Hdistinct Hi. eapply operator_subscript_unique.
  - by apply lookup_bases.
  - done.
  - intros j b' Hj Hkey.
    assert (j < length A)%nat as Hlt.
    { apply lookup_lt_Some in Hj.
      by rewrite bases_get_cafberiht_array_t, length_fmap in Hj. }
    rewrite lookup_bases in Hj by done. injection Hj as <-.
    apply key_inj in Hkey.
    apply (NoDup_lookup _ j i (core_types.of_uint64 (A !!! i)) Hdistinct).
    + rewrite <- Hkey. by apply lookup_decoded.
    + by apply lookup_decoded.
Qed.

Lemma repeated_base_None (l : list core_interface) :
  NoDup l → cafberiht.repeated_base l = None.
Proof.
  induction 1 as [|b l Hb _ IH]; [done|]. simpl.
  by rewrite bool_decide_eq_false_2.
Qed.

Lemma pack_not_empty_ok (C : cafberiht) :
  cafberiht.bases C ≠ [] → cafberiht.pack_not_empty C = well_formed ().
Proof.
  unfold cafberiht.pack_not_empty. destruct (cafberiht.bases C); done.
Qed.

Lemma class_definition_ok (A : list Z) :
  NoDup (core_types.of_uint64 <$> A) → A ≠ [] →
  cafberiht.class_definition (get_cafberiht_array_t A) = well_formed ().
Proof.
  intros Hdistinct Hne. unfold cafberiht.class_definition.
  rewrite repeated_base_None.
  - apply pack_not_empty_ok. rewrite bases_get_cafberiht_array_t.
    by destruct A.
  - rewrite bases_get_cafberiht_array_t.
    rewrite (list_fmap_compose core_types.of_uint64 Core_interface).
    apply NoDup_fmap_2; [|done]. by intros ?? [= ?].
Qed.

Lemma get_core_by_index_in_bounds (C : cafberiht) (n : Z) :
  0 ≤ n < cafberiht.size C →
  cafberiht.get_core_by_index C n
  = cafberiht.operator_subscript C
      (tag (unsigned_integer
              (cafberiht.index_transform_values C !!! Z.to_nat n))).
Proof.
  intros Hn. unfold cafberiht.get_core_by_index.
  by rewrite (proj2 (Z.ltb_lt n _)) by lia.
Qed.

Lemma operator_subscript_not_printer (C : cafberiht) (t : integral_constant)
    (p : static_assert_printer_impl) :
  cafberiht.operator_subscript C t ≠ ill_formed (incomplete_type p).
Proof.
  unfold cafberiht.operator_subscript.
  by destruct (List.filter _ _) as [|? [|? ?]].
Qed.

(** ** Element access *)

(** C3. In a container built from an aggregator whose enumerators are
    pairwise distinct, for every position [i] below the width, subscripting
    with the tag of the [i]-th enumerator, [get_core_by_enum] at that
    enumerator and [get_core_by_index] at [i] all yield a reference to the
    same storage, the [i]-th base subobject. *)
Theorem tag_access_aliases_positional_access (A : list Z) (i : nat) :
  NoDup (core_types.of_uint64 <$> A) → (i < length A)%nat →
  let C := get_cafberiht_array_t A in
  let e := core_types.of_uint64 (A !!! i) in
  cafberiht.operator_subscript C (tag (enumerator e))
    = well_formed (base_subobject i)
  ∧ cafberiht.get_core_by_enum C e = well_formed (base_subobject i)
  ∧ cafberiht.get_core_by_index C (Z.of_nat i) = well_formed (base_subobject i).
Proof.
  intros Hdistinct Hi C e.
  pose proof (operator_subscript_position A i Hdistinct Hi) as Htag.
  split_and!.
  - done.
  - unfold cafberiht.get_core_by_enum. by rewrite tag_unsigned_integer.
  - subst C. rewrite get_core_by_index_in_bounds
      by (rewrite size_get_cafberiht_array_t; lia).
    rewrite Nat2Z.id, lookup_index_transform_values by done.
    by rewrite tag_unsigned_integer.
Qed.

Lemma tag_access_aliases_positional_access_witness :
  NoDup (core_types.of_uint64 <$> [0; 1; 2]) ∧ (1 < length [0; 1; 2])%nat
  ∧ cafberiht.get_core_by_enum (get_cafberiht_array_t [0; 1; 2])
      core_types.attn_k
    = cafberiht.get_core_by_index (get_cafberiht_array_t [0; 1; 2]) 1.
Proof.
  assert (NoDup (core_types.of_uint64 <$> [0; 1; 2])) as Hdistinct
    by (apply (bool_decide_unpack _); vm_compute; exact I).
  assert (1 < length [0; 1; 2])%nat as Hi by (simpl; lia).
  split_and!; [done..|].
  destruct (tag_access_aliases_positional_access [0; 1; 2] 1 Hdistinct Hi)
    as (_ & Henum & Hindex).
  exact (eq_trans Henum (eq_sym Hindex)).
Defined.

(** C6. A container type built from an empty aggregator is ill-formed: its
    definition stops at the diagnostic that spells
    [static_assert_printer_impl<empty_cafberiht_bases_pack>]; for every
    aggregator of width at least 1 the same check passes. *)
Theorem empty_cafberiht_bases_pack_diagnostic (A : list Z) :
  (length A = 0%nat →
   cafberiht.class_definition (get_cafberiht_array_t A)
   = ill_formed (incomplete_type (printer_impl empty_cafberiht_bases_pack [])))
  ∧ ((1 ≤ length A)%nat →
     cafberiht.pack_not_empty (get_cafberiht_array_t A) = well_formed ()).
Proof.
  split.
  - intros ->%nil_length_inv. reflexivity.
  - intros HW. apply pack_not_empty_ok. rewrite bases_get_cafberiht_array_t.
    destruct A; [simpl in HW; lia | done].
Qed.

Lemma empty_cafberiht_bases_pack_diagnostic_witness :
  length (@nil Z) = 0%nat
  ∧ cafberiht.class_definition (get_cafberiht_array_t [])
    = ill_formed (incomplete_type (printer_impl empty_cafberiht_bases_pack []))
  ∧ (1 ≤ length [4])%nat
  ∧ cafberiht.pack_not_empty (get_cafberiht_array_t [4]) = well_formed ().
Proof.
  split_and!.
  - reflexivity.
  - apply (proj1 (empty_cafberiht_bases_pack_diagnostic [])). reflexivity.
  - simpl; lia.
  - apply (proj2 (empty_cafberiht_bases_pack_diagnostic [4])). simpl; lia.
Defined.

(** ** Enumerator to position *)

Section get_index_by_enum.
Variables (A : list Z) (e : core_types).
Hypothesis width_fits : Z.of_nat (length A) < 2 ^ 64.

Local Abbreviation C := (get_cafberiht_array_t A).

Lemma table_entry_decodes (k : nat) :
  (k < length A)%nat →
  core_types.of_uint64 (cafberiht.index_transform_values C !!! k)
  = core_types.of_uint64 (A !!! k).
Proof.
  intros Hk. rewrite lookup_index_transform_values by done.
  apply of_to_uint64, of_uint64_representable.
Qed.

(** Loop invariant: no position below the counter holds [e]. *)
Lemma get_index_by_enum_from_spec (fuel k : nat) :
  (k ≤ length A)%nat → (length A - k < fuel)%nat →
  (∀ j : nat, (j < k)%nat → core_types.of_uint64 (A !!! j) ≠ e) →
  ∃ r, cafberiht.get_index_by_enum_from C e fuel (Z.of_nat k) = Some r
       ∧ first_position A e r.
Proof.
  revert k. induction fuel as [|fuel IH]; intros k Hk Hfuel Hbelow; [lia|].
  simpl. rewrite size_get_cafberiht_array_t.
  destruct (Z.ltb_spec (Z.of_nat k) (Z.of_nat (length A))) as [Hlt|Hge].
  - rewrite Nat2Z.id, table_entry_decodes by lia. case_bool_decide as Heq.
    + exists (Z.of_nat k). split; [done|]. left. exists k.
      split_and!; [lia|done..].
    + rewrite to_uint64_small by lia.
      replace (Z.of_nat k + 1) with (Z.of_nat (S k)) by lia.
      apply IH; [lia..|]. intros j Hj.
      destruct (decide (j = k)) as [->|]; [done|]. apply Hbelow. lia.
  - exists (2 ^ 64 - 1). split; [done|]. right. split; [done|].
    intros i Hi. apply Hbelow. lia.
Qed.
End get_index_by_enum.

(** Round trip: with pairwise distinct enumerators, the position of the
    [i]-th enumerator is [i]. *)
Lemma get_index_by_enum_position (A : list Z) (i : nat) :
  Z.of_nat (length A) < 2 ^ 64 → NoDup (core_types.of_uint64 <$> A) →
  (i < length A)%nat →
  cafberiht.get_index_by_enum (get_cafberiht_array_t A)
    (core_types.of_uint64 (A !!! i)) = Some (Z.of_nat i).
Proof.
  intros Hfits Hdistinct Hi.
  destruct (get_index_by_enum_from_spec A (core_types.of_uint64 (A !!! i))
              Hfits (S (length A)) 0) as (r & Hr & Hanswer); [lia..| |].
  { intros j Hj. lia. }
  unfold cafberiht.get_index_by_enum.
  rewrite bases_get_cafberiht_array_t, length_fmap.
  change 0 with (Z.of_nat 0). rewrite Hr. f_equal.
  destruct Hanswer as [(i' & Hi' & -> & Hat & _)|[_ Hnone]].
  - f_equal. apply (NoDup_lookup _ i' i (core_types.of_uint64 (A !!! i))
                      Hdistinct).
    + rewrite <- Hat. by apply lookup_decoded.
    + by apply lookup_decoded.
  - by destruct (Hnone i).
Qed.

(** ** Tags *)

(** C8, as the code has it.  Two tags are the same type exactly when their
    payloads have the same 64-bit value.  Hence tags of enumerators are the
    same type only for the same enumerator, tags of unsigned integers only
    for the same integer, and the tag of an enumerator [e] and the tag of an
    integer [n] are the same type exactly when [n] is the 64-bit value of
    [e]. *)
Theorem tag_same_type_iff (a b : tag_index) :
  (tag a = tag b ↔ static_cast_uint64 a = static_cast_uint64 b)
  ∧ (∀ e1 e2, representable e1 → representable e2 →
       tag (enumerator e1) = tag (enumerator e2) ↔ e1 = e2)
  ∧ (∀ n1 n2, 0 ≤ n1 < 2 ^ 64 → 0 ≤ n2 < 2 ^ 64 →
       tag (unsigned_integer n1) = tag (unsigned_integer n2) ↔ n1 = n2)
  ∧ (∀ e n, 0 ≤ n < 2 ^ 64 →
       tag (enumerator e) = tag (unsigned_integer n)
       ↔ n = core_types.to_uint64 e).
Proof.
  assert (∀ x y, tag x = tag y ↔ static_cast_uint64 x = static_cast_uint64 y)
    as Htag.
  { intros x y. unfold tag. split; [by intros [= ?] | by intros ->]. }
  split_and!.
  - apply Htag.
  - intros e1 e2 H1 H2. rewrite Htag. simpl. split; [|by intros ->].
    by apply core_types_to_uint64_inj.
  - intros n1 n2 H1 H2. rewrite Htag. simpl. by rewrite !to_uint64_small.
  - intros e n Hn. rewrite Htag. simpl. rewrite to_uint64_small by done.
    split; by intros ->.
Qed.

Lemma tag_same_type_iff_witness :
  representable core_types.output ∧ representable core_types.count
  ∧ 0 ≤ 16 < 2 ^ 64 ∧ 0 ≤ 100 < 2 ^ 64
  ∧ tag (enumerator core_types.output) = tag (unsigned_integer 16)
  ∧ tag (enumerator core_types.output) ≠ tag (enumerator core_types.count)
  ∧ tag (unsigned_integer 16) ≠ tag (unsigned_integer 100).
Proof.
  assert (representable core_types.output) as Houtput
    by (vm_compute; split; [discriminate | reflexivity]).
  assert (representable core_types.count) as Hcount
    by (vm_compute; split; [discriminate | reflexivity]).
  assert (0 ≤ 16 < 2 ^ 64) as H16 by (split; [discriminate | reflexivity]).
  assert (0 ≤ 100 < 2 ^ 64) as H100 by (split; [discriminate | reflexivity]).
  destruct (tag_same_type_iff (enumerator core_types.output)
              (unsigned_integer 16)) as (_ & Henum & Hint & Hmixed).
  split; [exact Houtput|]. split; [exact Hcount|].
  split; [exact H16|]. split; [exact H100|]. split; [|split].
  - apply (Hmixed core_types.output 16 H16). reflexivity.
  - intros Heq.
    apply (Henum core_types.output core_types.count Houtput Hcount) in Heq.
    discriminate Heq.
  - intros Heq. apply (Hint 16 100 H16 H100) in Heq. discriminate Heq.
Defined.

(** C8, as stated, fails in its last part: the enumerator [attn_q] and the
    integer 0 yield one and the same tag type. *)
Lemma tag_enumerator_integer_counterexample :
  ¬ (∀ (e : core_types) (n : Z),
       e ∈ core_types.enumerators → 0 ≤ n < 2 ^ 64 →
       tag (enumerator e) ≠ tag (unsigned_integer n)).
Proof.
  intros H. apply (H core_types.attn_q 0).
  - apply list_elem_of_here.
  - split; [discriminate | reflexivity].
  - reflexivity.
Qed.

(** ** The walk *)

Section list_positions.
Context {X : Type} `{!Inhabited X}.

Lemma list_as_positions (l : list X) :
  l = (λ i, l !!! i) <$> seq 0 (length l).
Proof.
  apply list_eq. intros i. rewrite list_lookup_fmap.
  destruct (l !! i) as [x|] eqn:Hi.
  - rewrite lookup_seq_lt by eauto using lookup_lt_Some. simpl.
    by rewrite (list_lookup_total_correct _ _ _ Hi).
  - rewrite lookup_seq_ge; [done|]. by apply lookup_ge_None.
Qed.

Lemma filter_fmap {Y : Type} (f : Y → X) (p : X → bool) (l : list Y) :
  List.filter p (f <$> l) = f <$> List.filter (λ y, p (f y)) l.
Proof.
  induction l as [|y l IH]; [done|]. csimpl.
  destruct (p (f y)); csimpl; by rewrite IH.
Qed.

(** Filtering a list keeps the elements at the admitted positions. *)
Lemma filter_positions (p : X → bool) (l : list X) :
  List.filter p l
  = (λ i, l !!! i) <$> List.filter (λ i, p (l !!! i)) (seq 0 (length l)).
Proof. rewrite <- filter_fmap. by rewrite <- list_as_positions. Qed.
End list_positions.

Lemma elem_of_filter_seq (q : nat → bool) (n i : nat) :
  i ∈ List.filter q (seq 0 n) ↔ (i < n)%nat ∧ q i = true.
Proof.
  rewrite list_elem_of_In, filter_In, <- list_elem_of_In, elem_of_seq.
  intuition lia.
Qed.

Lemma filter_seq_ascending (q : nat → bool) (k n : nat) :
  StronglySorted lt (List.filter q (seq k n)).
Proof.
  revert k. induction n as [|n IH]; intros k; simpl; [constructor|].
  destruct (q k); [|apply IH]. constructor; [apply IH|].
  apply Forall_forall. intros j.
  rewrite list_elem_of_In, filter_In, <- list_elem_of_In, elem_of_seq. lia.
Qed.

Section walk_facts.
Context {object arg_types State : Type}.
Variable mixin : mixin_type object arg_types State.
Implicit Types (C : cafberiht) (b : core_interface).

Lemma is_base_of_bases C b :
  b ∈ cafberiht.bases C → walk.is_base_of b C = true.
Proof. intros Hb. by apply bool_decide_eq_true. Qed.

(** For a base of the container the guard holds, so the expansion is the
    call when the filter admits the base and nothing otherwise. *)
Lemma impl_internal_filtered_bases C b :
  b ∈ cafberiht.bases C →
  walk.impl_internal_filtered mixin C b
  = well_formed (if mixin_type.filter mixin b then [b] else []).
Proof.
  intros Hb. unfold walk.impl_internal_filtered.
  destruct (mixin_type.filter mixin b); [|done].
  by rewrite is_base_of_bases.
Qed.

Lemma comma_fold_filter C (l : list core_interface) :
  (∀ b, b ∈ l → b ∈ cafberiht.bases C) →
  walk.comma_fold (walk.impl_internal_filtered mixin C <$> l)
  = well_formed (List.filter (mixin_type.filter mixin) l).
Proof.
  induction l as [|b l IH]; intros Hsub; [done|]. csimpl.
  rewrite impl_internal_filtered_bases by (apply Hsub; left).
  rewrite IH by (intros b' Hb'; apply Hsub; by right). simpl.
  by destruct (mixin_type.filter mixin b).
Qed.

Lemma calls_filter C :
  walk.calls mixin C
  = well_formed (List.filter (mixin_type.filter mixin) (cafberiht.bases C)).
Proof. by apply comma_fold_filter. Qed.

Lemma impl_run C :
  walk.impl mixin C
  = well_formed
      (λ this args,
         walk.run mixin this args
           (List.filter (mixin_type.filter mixin) (cafberiht.bases C))).
Proof. unfold walk.impl. by rewrite calls_filter. Qed.
End walk_facts.

(** C1. For every container and every mixin, the walk unrolls to calls of
    the mixin's action on the container's bases at a list of positions that
    (a) contains a position exactly when it is below the width and the
    mixin's filter admits the base there, (b) is strictly ascending, so each
    admitted position occurs once and in aggregator order; and running the
    walk performs these calls left to right on the state, with the same
    arguments each time. *)
Theorem walk_calls_admitted_in_order {object arg_types State : Type}
    (mixin : mixin_type object arg_types State) (C : cafberiht) :
  ∃ indices : list nat,
    (∀ i : nat, i ∈ indices ↔
       (i < length (cafberiht.bases C))%nat
       ∧ mixin_type.filter mixin (cafberiht.bases C !!! i) = true)
    ∧ StronglySorted lt indices
    ∧ walk.calls mixin C
      = well_formed ((λ i, cafberiht.bases C !!! i) <$> indices)
    ∧ ∃ f, walk.impl mixin C = well_formed f
           ∧ ∀ this args st,
               f this args st
               = foldl (λ st i, mixin_type.impl mixin (cafberiht.bases C !!! i)
                                  this args st)
                       st indices.
Proof.
  exists (List.filter (λ i, mixin_type.filter mixin (cafberiht.bases C !!! i))
                      (seq 0 (length (cafberiht.bases C)))).
  split_and!.
  - intros i. apply elem_of_filter_seq.
  - apply filter_seq_ascending.
  - by rewrite calls_filter, filter_positions.
  - eexists. split; [apply impl_run|]. intros this args st. simpl.
    unfold walk.run. rewrite filter_positions.
    generalize (List.filter
                  (λ i, mixin_type.filter mixin (cafberiht.bases C !!! i))
                  (seq 0 (length (cafberiht.bases C)))).
    intros l. revert st. induction l as [|i l IH]; intros st; [done|].
    simpl. apply IH.
Qed.

(** C7. When the mixin's filter rejects every base of the container, the walk
    unrolls to no call at all, and running it returns the state it was given:
    arguments, elements and everything else are as before. *)
Theorem walk_admits_none {object arg_types State : Type}
    (mixin : mixin_type object arg_types State) (C : cafberiht) :
  (∀ b, b ∈ cafberiht.bases C → mixin_type.filter mixin b = false) →
  walk.calls mixin C = well_formed []
  ∧ ∃ f, walk.impl mixin C = well_formed f
         ∧ ∀ this args st, f this args st = st.
Proof.
  intros Hnone.
  assert (List.filter (mixin_type.filter mixin) (cafberiht.bases C) = [])
    as Hfilter.
  { apply filter_none. intros j b Hj. apply Hnone.
    by apply list_elem_of_lookup_2 in Hj. }
  split.
  - by rewrite calls_filter, Hfilter.
  - eexists. split; [apply impl_run|]. intros this args st.
    simpl. by rewrite Hfilter.
Qed.

Lemma walk_admits_none_witness :
  (∀ b, b ∈ cafberiht.bases (get_cafberiht_array_t [0; 1; 2; 3]) →
        mixin_type.filter reject_all b = false)
  ∧ walk.calls reject_all (get_cafberiht_array_t [0; 1; 2; 3]) = well_formed [].
Proof.
  assert (∀ b, b ∈ cafberiht.bases (get_cafberiht_array_t [0; 1; 2; 3]) →
               mixin_type.filter reject_all b = false) as Hnone
    by (intros b _; reflexivity).
  split; [exact Hnone|].
  exact (proj1 (walk_admits_none reject_all _ Hnone)).
Defined.

(** C10. For every container and every mixin, each base of the container
    passes the [is_base_of] guard, so [impl_internal_filtered] at a base of
    the container yields no diagnostic; the walk only instantiates it at the
    container's own bases, and so yields no diagnostic either, in particular
    never [invalid_base_cast]. *)
Theorem invalid_base_cast_unreachable {object arg_types State : Type}
    (mixin : mixin_type object arg_types State) (C : cafberiht) :
  (∀ base_type, base_type ∈ cafberiht.bases C →
     walk.is_base_of base_type C = true
     ∧ ∀ d, walk.impl_internal_filtered mixin C base_type ≠ ill_formed d)
  ∧ (∀ d, walk.calls mixin C ≠ ill_formed d)
  ∧ (∀ d, walk.impl mixin C ≠ ill_formed d).
Proof.
  split_and!.
  - intros b Hb. split; [by apply is_base_of_bases|]. intros d.
    by rewrite impl_internal_filtered_bases.
  - intros d. by rewrite calls_filter.
  - intros d. by rewrite impl_run.
Qed.

Lemma invalid_base_cast_unreachable_witness :
  Core_interface core_types.attn_k
    ∈ cafberiht.bases (get_cafberiht_array_t [0; 1; 2; 3])
  ∧ walk.is_base_of (Core_interface core_types.attn_k)
      (get_cafberiht_array_t [0; 1; 2; 3]) = true.
Proof.
  assert (Core_interface core_types.attn_k
            ∈ cafberiht.bases (get_cafberiht_array_t [0; 1; 2; 3])) as Hb
    by (apply (bool_decide_unpack _); vm_compute; exact I).
  split; [exact Hb|].
  exact (proj1 (proj1 (invalid_base_cast_unreachable reject_all _) _ Hb)).
Defined.

(** ** The worked harness *)

Lemma pretty_N_char_digit (d : N) : is_digit (pretty_N_char d) = true.
Proof. unfold pretty_N_char. by repeat case_match. Qed.

Lemma pretty_N_go_decimal (x : N) (s : string) :
  decimal s = true → decimal (pretty_N_go x s) = true.
Proof.
  revert s. induction (N.lt_wf_0 x) as [x _ IH]; intros s Hs.
  assert (x = 0 ∨ 0 < x)%N as [->|Hx] by lia.
  - by rewrite pretty_N_go_0.
  - rewrite pretty_N_go_step by done. apply IH; [by apply N.div_lt|].
    simpl. rewrite pretty_N_char_digit. by destruct s.
Qed.

Lemma pretty_N_decimal (x : N) : decimal (pretty x) = true.
Proof.
  unfold pretty, pretty_N. case_decide as Hx; [done|].
  rewrite pretty_N_go_step by lia. apply pretty_N_go_decimal.
  simpl. by rewrite pretty_N_char_digit.
Qed.

(** A [uint64_t] prints as a decimal numeral. *)
Lemma pretty_uint64_decimal (z : Z) : decimal (pretty (to_uint64 z)) = true.
Proof.
  pose proof (to_uint64_range z) as [Hz _].
  destruct (to_uint64 z) as [|x|x]; [done| |lia].
  apply pretty_N_decimal.
Qed.

Section addition.
Context {rand_state : Type}.
Variable rand : rand_state → Z * rand_state.

(** One admitted call: [rand] is stepped once and its result is added to the
    accumulator, modulo 2^64. *)
Lemma addition_mixin_impl (b : core_interface) (m : harness.machine) :
  mixin_type.impl (harness.addition_mixin rand) b harness.cafberiht_val_lvalue
    harness.value_lvalue m
  = let '(r, g) := rand (harness.generator (harness.environment m)) in
    harness.Machine (harness.cafberiht_val m)
      (to_uint64 (harness.value m + to_uint64 r))
      (harness.Process g (harness.cout (harness.environment m))).
Proof.
  simpl. unfold harness.call_rand.
  by destruct (rand (harness.generator (harness.environment m))).
Qed.

(** Five admitted calls in a row. *)
Lemma addition_mixin_run_5 (b0 b2 b4 b6 b8 : core_interface)
    (elements : list Z) (v : Z) (p : harness.process)
    (r0 r2 r4 r6 r8 : Z) (g1 g2 g3 g4 g5 : rand_state) :
  rand (harness.generator p) = (r0, g1) → rand g1 = (r2, g2) →
  rand g2 = (r4, g3) → rand g3 = (r6, g4) → rand g4 = (r8, g5) →
  walk.run (harness.addition_mixin rand) harness.cafberiht_val_lvalue
    harness.value_lvalue [b0; b2; b4; b6; b8] (harness.Machine elements v p)
  = harness.Machine elements (to_uint64 (v + r0 + r2 + r4 + r6 + r8))
      (harness.Process g5 (harness.cout p)).
Proof.
  intros H0 H2 H4 H6 H8. unfold walk.run. cbn [foldl].
  rewrite (addition_mixin_impl b0); projections; rewrite H0.
  rewrite (addition_mixin_impl b2); projections; rewrite H2.
  rewrite (addition_mixin_impl b4); projections; rewrite H4.
  rewrite (addition_mixin_impl b6); projections; rewrite H6.
  rewrite (addition_mixin_impl b8); projections; rewrite H8.
  match goal with
  | |- harness.Machine _ ?x _ = harness.Machine _ ?y _ =>
      replace x with y; [done|]
  end.
  unfold to_uint64. change (2 ^ 64) with 18446744073709551616.
  Z.div_mod_to_equations. lia.
Qed.

Lemma addition_mixin_calls_10 :
  List.filter (mixin_type.filter (harness.addition_mixin rand))
    (cafberiht.bases (get_cafberiht_array_t (core_aggregator 10)))
  = (λ i, cafberiht.bases (get_cafberiht_array_t (core_aggregator 10)) !!! i)
    <$> [0; 2; 4; 6; 8]%nat.
Proof. reflexivity. Qed.
End addition.

(** C9. With [cafberiht_width = 10] and [addition_mixin], the program
    compiles; the walk unrolls to exactly five calls, on the bases at
    positions 0, 2, 4, 6, 8; a run steps [rand] five times and adds the five
    results to the accumulator, prints the single line
    [Final Value: <decimal>, For Cafberiht Width of: 10] followed by a
    newline, where the decimal is the accumulator, and returns 0. *)
Theorem main_width_10 {rand_state : Type} (rand : rand_state → Z * rand_state)
    (p : harness.process) :
  let C := get_cafberiht_array_t (core_aggregator 10) in
  let '(r0, g1) := rand (harness.generator p) in
  let '(r2, g2) := rand g1 in
  let '(r4, g3) := rand g2 in
  let '(r6, g4) := rand g3 in
  let '(r8, g5) := rand g4 in
  let total := to_uint64 (r0 + r2 + r4 + r6 + r8) in
  cafberiht.size C = 10
  ∧ walk.calls (harness.addition_mixin rand) C
    = well_formed ((λ i, cafberiht.bases C !!! i) <$> [0; 2; 4; 6; 8]%nat)
  ∧ decimal (pretty total) = true
  ∧ ∃ program,
      harness.main rand 10 = well_formed program
      ∧ program p
        = (0, harness.Process g5
                (harness.cout p +:+ "Final Value: " +:+ pretty total
                 +:+ ", For Cafberiht Width of: 10" +:+ harness.endl)).
Proof.
  intros C.
  destruct (rand (harness.generator p)) as [r0 g1] eqn:H0.
  destruct (rand g1) as [r2 g2] eqn:H2.
  destruct (rand g2) as [r4 g3] eqn:H4.
  destruct (rand g3) as [r6 g4] eqn:H6.
  destruct (rand g4) as [r8 g5] eqn:H8.
  intros total. split_and!.
  - reflexivity.
  - rewrite calls_filter. by rewrite addition_mixin_calls_10.
  - apply pretty_uint64_decimal.
  - unfold harness.main.
    change (cafberiht.class_definition
              (get_cafberiht_array_t (core_aggregator 10)))
      with (@well_formed unit ()).
    rewrite impl_run. eexists. split; [reflexivity|].
    rewrite addition_mixin_calls_10. cbn [fmap list_fmap].
    rewrite (addition_mixin_run_5 rand _ _ _ _ _ _ _ _ _ _ _ _ _ _ _ _ _ _
               H0 H2 H4 H6 H8).
    reflexivity.
Qed.

(** A run with a sample generator: state [s] yields [7 s + 3] and moves to
    [s + 1]; from state 0 the five results are 3, 10, 17, 24, 31. *)
Example main_sample_run :
  (program ← harness.main (λ s : Z, (7 * s + 3, s + 1)) 10;
   well_formed (program (harness.Process 0 "")))
  = well_formed
      (0, harness.Process 5
            ("Final Value: 85, For Cafberiht Width of: 10" +:+ harness.endl)).
Proof. reflexivity. Qed.

(** * Further properties of the container *)

(** ** Overload resolution, in general *)

Section resolution_cases.
Context {X : Type} (p : X → bool).

Lemma filter_some (l : list X) j y :
  l !! j = Some y → p y = true → List.filter p l ≠ [].
Proof.
  intros Hj Hy Hnil. apply list_elem_of_lookup_2, list_elem_of_In in Hj.
  assert (In y (List.filter p l)) as Hin by (by apply filter_In).
  by rewrite Hnil in Hin.
Qed.

Lemma filter_two (l : list X) i j x y :
  i ≠ j → l !! i = Some x → l !! j = Some y → p x = true → p y = true →
  ∃ a b rest, List.filter p l = a :: b :: rest.
Proof.
  revert i j. induction l as [|a l IH]; intros i j Hne Hi Hj Hx Hy; [done|].
  destruct i as [|i], j as [|j]; simpl in *; [done|..].
  - injection Hi as ->. rewrite Hx.
    destruct (List.filter p l) as [|b rest] eqn:Hf; [|eauto].
    by destruct (filter_some l j y).
  - injection Hj as ->. rewrite Hy.
    destruct (List.filter p l) as [|b rest] eqn:Hf; [|eauto].
    by destruct (filter_some l i x).
  - destruct (IH i j) as (b & c & rest & Hf); [lia|done..|].
    rewrite Hf. destruct (p a); eauto.
Qed.

Lemma filter_single_inv (l : list X) o :
  List.filter p l = [o] →
  ∃ i, l !! i = Some o ∧ p o = true
       ∧ ∀ j y, l !! j = Some y → p y = true → j = i.
Proof.
  intros Hf.
  assert (In o (List.filter p l)) as Hin by (rewrite Hf; by left).
  apply filter_In in Hin as [Hin Ho].
  apply list_elem_of_In, list_elem_of_lookup in Hin as [i Hi].
  exists i. split_and!; [done..|]. intros j y Hj Hy.
  destruct (decide (j = i)) as [|Hne]; [done|].
  destruct (filter_two l j i y o Hne Hj Hi Hy Ho) as (a & b & rest & Hf').
  by rewrite Hf in Hf'.
Qed.
End resolution_cases.

Section operator_subscript_cases.
Implicit Types (C : cafberiht) (t : integral_constant).

Lemma lookup_overload_set C j :
  cafberiht.overload_set C !! j
  = (λ b, (core_elem_base.key b, base_subobject j)) <$> cafberiht.bases C !! j.
Proof. unfold cafberiht.overload_set. by rewrite list_lookup_imap. Qed.

Lemma operator_subscript_well_formed_inv C t r :
  cafberiht.operator_subscript C t = well_formed r →
  ∃ i b, r = base_subobject i ∧ cafberiht.bases C !! i = Some b
         ∧ core_elem_base.key b = t
         ∧ ∀ j b', cafberiht.bases C !! j = Some b' →
                   core_elem_base.key b' = t → j = i.
Proof.
  unfold cafberiht.operator_subscript.
  destruct (List.filter _ _) as [|o [|o' rest]] eqn:Hf; [done| |done].
  intros [= <-]. apply filter_single_inv in Hf as (i & Hi & Ho & Huniq).
  rewrite lookup_overload_set in Hi.
  destruct (cafberiht.bases C !! i) as [b|] eqn:Hb; [|done].
  injection Hi as <-. exists i, b. split_and!; [done..| |].
  - by apply bool_decide_eq_true in Ho.
  - intros j b' Hj Hkey. apply (Huniq j (core_elem_base.key b', base_subobject j)).
    + by rewrite lookup_overload_set, Hj.
    + by apply bool_decide_eq_true.
Qed.

Lemma operator_subscript_no_viable C t :
  (∀ j b, cafberiht.bases C !! j = Some b → core_elem_base.key b ≠ t) →
  cafberiht.operator_subscript C t = ill_formed (no_viable_overload t).
Proof.
  intros Hnone. unfold cafberiht.operator_subscript.
  rewrite filter_none; [done|]. intros j [k r]. rewrite lookup_overload_set.
  destruct (cafberiht.bases C !! j) as [b|] eqn:Hb; [|done].
  intros [= <- <-]. apply bool_decide_eq_false. by apply (Hnone j).
Qed.

Lemma operator_subscript_ambiguous C t i j b b' :
  i ≠ j → cafberiht.bases C !! i = Some b → cafberiht.bases C !! j = Some b' →
  core_elem_base.key b = t → core_elem_base.key b' = t →
  cafberiht.operator_subscript C t = ill_formed (ambiguous_overload t).
Proof.
  intros Hne Hi Hj Hb Hb'. unfold cafberiht.operator_subscript.
  destruct (filter_two (λ o, bool_decide (o.1 = t)) (cafberiht.overload_set C)
              i j (core_elem_base.key b, base_subobject i)
              (core_elem_base.key b', base_subobject j))
    as (x & y & rest & ->); [done|..|done].
  - by rewrite lookup_overload_set, Hi.
  - by rewrite lookup_overload_set, Hj.
  - by apply bool_decide_eq_true.
  - by apply bool_decide_eq_true.
Qed.
End operator_subscript_cases.

(** The base at a position of a container built from an aggregator is keyed
    on the tag of an enumerator exactly when the entry there encodes it. *)
Lemma key_eq_tag_iff (v : Z) (e : core_types) :
  representable e →
  core_elem_base.key (Core_interface (core_types.of_uint64 v))
  = tag (enumerator e) ↔ core_types.of_uint64 v = e.
Proof.
  intros He. split; [|by intros <-].
  unfold core_elem_base.key, tag. simpl. intros [= H].
  eauto using core_types_to_uint64_inj, of_uint64_representable.
Qed.

Lemma lookup_bases_Some (A : list Z) (j : nat) (b : core_interface) :
  cafberiht.bases (get_cafberiht_array_t A) !! j = Some b →
  (j < length A)%nat ∧ b = Core_interface (core_types.of_uint64 (A !!! j)).
Proof.
  intros Hj.
  assert (j < length A)%nat as Hlt.
  { apply lookup_lt_Some in Hj.
    by rewrite bases_get_cafberiht_array_t, length_fmap in Hj. }
  rewrite lookup_bases in Hj by done. by injection Hj as <-.
Qed.

(** ** Tag-keyed access *)

(** X1. Tag-keyed access never refers to a wrong element: whenever
    [get_core_by_enum<e>] compiles on a container built from an aggregator,
    the reference it yields designates a position below the width whose
    entry encodes [e], and no other position holds [e]. *)
Theorem get_core_by_enum_sound (A : list Z) (e : core_types) (r : reference) :
  representable e →
  cafberiht.get_core_by_enum (get_cafberiht_array_t A) e = well_formed r →
  ∃ i : nat,
    r = base_subobject i ∧ (i < length A)%nat
    ∧ core_types.of_uint64 (A !!! i) = e
    ∧ ∀ j : nat, (j < length A)%nat →
                 core_types.of_uint64 (A !!! j) = e → j = i.
Proof.
  intros He. unfold cafberiht.get_core_by_enum. rewrite tag_unsigned_integer.
  intros (i & b & -> & Hi & Hkey & Huniq)%operator_subscript_well_formed_inv.
  apply lookup_bases_Some in Hi as [Hlt ->].
  exists i. split_and!; [done..| |].
  - by apply key_eq_tag_iff.
  - intros j Hj Hat. apply (Huniq j _ (lookup_bases A j Hj)).
    by apply key_eq_tag_iff.
Qed.

Lemma get_core_by_enum_sound_witness :
  representable core_types.ffn_gate
  ∧ cafberiht.get_core_by_enum (get_cafberiht_array_t [7; 5; 3])
      core_types.ffn_gate = well_formed (base_subobject 1)
  ∧ ∃ i : nat, base_subobject 1 = base_subobject i
               ∧ core_types.of_uint64 ([7; 5; 3] !!! i) = core_types.ffn_gate.
Proof.
  assert (representable core_types.ffn_gate) as He
    by (vm_compute; split; [discriminate | reflexivity]).
  assert (cafberiht.get_core_by_enum (get_cafberiht_array_t [7; 5; 3])
            core_types.ffn_gate = well_formed (base_subobject 1)) as Hr
    by reflexivity.
  split; [exact He|]. split; [exact Hr|].
  destruct (get_core_by_enum_sound [7; 5; 3] core_types.ffn_gate _ He Hr)
    as (i & Hi & _ & Hat & _).
  exists i. split; [exact Hi | exact Hat].
Defined.

(** X2. Missing key: for an enumerator that no entry of the aggregator
    encodes, [get_core_by_enum] does not compile, the subscript has no viable
    overload for the enumerator's tag; [get_cafberiht_type_at_enum] fails the
    same way. *)
Theorem get_core_by_enum_absent (A : list Z) (e : core_types) :
  representable e →
  (∀ i : nat, (i < length A)%nat → core_types.of_uint64 (A !!! i) ≠ e) →
  cafberiht.get_core_by_enum (get_cafberiht_array_t A) e
  = ill_formed (no_viable_overload (tag (enumerator e)))
  ∧ get_cafberiht_type_at_enum (get_cafberiht_array_t A) e
    = ill_formed (no_viable_overload (tag (enumerator e))).
Proof.
  intros He Habsent.
  assert (cafberiht.get_core_by_enum (get_cafberiht_array_t A) e
          = ill_formed (no_viable_overload (tag (enumerator e)))) as Hr.
  { unfold cafberiht.get_core_by_enum. rewrite tag_unsigned_integer.
    apply operator_subscript_no_viable. intros j b Hj Hkey.
    apply lookup_bases_Some in Hj as [Hlt ->].
    apply key_eq_tag_iff in Hkey; [|done]. by apply (Habsent j). }
  split; [done|]. unfold get_cafberiht_type_at_enum. by rewrite Hr.
Qed.

Lemma get_core_by_enum_absent_witness :
  representable core_types.count
  ∧ (∀ i : nat, (i < length [0; 1; 2])%nat →
                core_types.of_uint64 ([0; 1; 2] !!! i) ≠ core_types.count)
  ∧ cafberiht.get_core_by_enum (get_cafberiht_array_t [0; 1; 2])
      core_types.count
    = ill_formed (no_viable_overload (Integral_constant 100)).
Proof.
  assert (representable core_types.count) as He
    by (vm_compute; split; [discriminate | reflexivity]).
  assert (∀ i : nat, (i < length [0; 1; 2])%nat →
            core_types.of_uint64 ([0; 1; 2] !!! i) ≠ core_types.count)
    as Habsent.
  { intros i Hi. simpl in Hi.
    destruct i as [|[|[|i]]]; [discriminate..|lia]. }
  split; [exact He|]. split; [exact Habsent|].
  exact (proj1 (get_core_by_enum_absent [0; 1; 2] core_types.count He Habsent)).
Defined.

(** X4. The element type is recovered from the enumerator alone: whenever
    [get_cafberiht_type_at_enum<e>] compiles it is [core_interface<e>], and
    it does compile, with that result, for the enumerator of every position
    of an aggregator with pairwise distinct enumerators. *)
Theorem get_cafberiht_type_at_enum_enum_value (A : list Z) :
  (∀ (e : core_types) (b : core_interface),
     representable e →
     get_cafberiht_type_at_enum (get_cafberiht_array_t A) e = well_formed b →
     b = Core_interface e ∧ enum_value b = e)
  ∧ (NoDup (core_types.of_uint64 <$> A) →
     ∀ i : nat, (i < length A)%nat →
       get_cafberiht_type_at_enum (get_cafberiht_array_t A)
         (core_types.of_uint64 (A !!! i))
       = well_formed (Core_interface (core_types.of_uint64 (A !!! i)))).
Proof.
  split.
  - intros e b He. unfold get_cafberiht_type_at_enum.
    destruct (cafberiht.get_core_by_enum _ e) as [r|d] eqn:Hr; [|done].
    unfold cafberiht.get_core_by_enum in Hr.
    rewrite tag_unsigned_integer in Hr.
    apply operator_subscript_well_formed_inv
      in Hr as (i & b' & -> & Hi & Hkey & _).
    simpl. rewrite (list_lookup_total_correct _ _ _ Hi). intros [= <-].
    apply lookup_bases_Some in Hi as [Hlt ->].
    apply key_eq_tag_iff in Hkey; [|done]. by rewrite Hkey.
  - intros Hdistinct i Hi. unfold get_cafberiht_type_at_enum.
    unfold cafberiht.get_core_by_enum. rewrite tag_unsigned_integer.
    rewrite operator_subscript_position by done. simpl.
    by rewrite (list_lookup_total_correct _ _ _ (lookup_bases A i Hi)).
Qed.

Lemma get_cafberiht_type_at_enum_enum_value_witness :
  NoDup (core_types.of_uint64 <$> [7; 5; 3]) ∧ (2 < length [7; 5; 3])%nat
  ∧ get_cafberiht_type_at_enum (get_cafberiht_array_t [7; 5; 3])
      core_types.attn_output
    = well_formed (Core_interface core_types.attn_output)
  ∧ representable core_types.attn_output
  ∧ enum_value (Core_interface core_types.attn_output)
    = core_types.attn_output.
Proof.
  assert (NoDup (core_types.of_uint64 <$> [7; 5; 3])) as Hdistinct
    by (apply (bool_decide_unpack _); vm_compute; exact I).
  assert (2 < length [7; 5; 3])%nat as Hi by (simpl; lia).
  assert (representable core_types.attn_output) as He
    by (vm_compute; split; [discriminate | reflexivity]).
  pose proof (proj2 (get_cafberiht_type_at_enum_enum_value [7; 5; 3])
                Hdistinct 2%nat Hi) as Htype.
  split; [exact Hdistinct|]. split; [exact Hi|]. split; [exact Htype|].
  split; [exact He|].
  exact (proj2 (proj1 (get_cafberiht_type_at_enum_enum_value [7; 5; 3])
                  core_types.attn_output _ He Htype)).
Defined.

(** ** Enumerator to position, and back *)

(** The result of the position query is a position below the width when the
    enumerator is present, and the sentinel, which is not below the width,
    when it is absent. *)
Lemma get_index_by_enum_result (A : list Z) (e : core_types) :
  Z.of_nat (length A) < 2 ^ 64 →
  ∃ r, cafberiht.get_index_by_enum (get_cafberiht_array_t A) e = Some r
       ∧ first_position A e r.
Proof.
  intros Hfits.
  destruct (get_index_by_enum_from_spec A e Hfits (S (length A)) 0)
    as (r & Hr & Hanswer); [lia..| |].
  { intros j Hj. lia. }
  exists r. split; [|done]. unfold cafberiht.get_index_by_enum.
  by rewrite bases_get_cafberiht_array_t, length_fmap.
Qed.

(** X6. Round trip: in a container with pairwise distinct enumerators, the
    position query at the enumerator of position [i] returns [i], and
    positional access at the position returned is tag-keyed access at that
    enumerator. *)
Theorem get_index_by_enum_round_trip (A : list Z) (i : nat) :
  Z.of_nat (length A) < 2 ^ 64 → NoDup (core_types.of_uint64 <$> A) →
  (i < length A)%nat →
  let C := get_cafberiht_array_t A in
  let e := core_types.of_uint64 (A !!! i) in
  ∃ r, cafberiht.get_index_by_enum C e = Some r ∧ r = Z.of_nat i
       ∧ cafberiht.get_core_by_index C r = cafberiht.get_core_by_enum C e
       ∧ cafberiht.get_core_by_enum C e = well_formed (base_subobject i).
Proof.
  intros Hfits Hdistinct Hi C e. exists (Z.of_nat i).
  pose proof (operator_subscript_position A i Hdistinct Hi) as Htag.
  assert (cafberiht.get_core_by_enum C e = well_formed (base_subobject i))
    as Henum.
  { unfold cafberiht.get_core_by_enum. by rewrite tag_unsigned_integer. }
  split_and!; [by apply get_index_by_enum_position|done| |done].
  rewrite Henum. subst C.
  rewrite get_core_by_index_in_bounds
    by (rewrite size_get_cafberiht_array_t; lia).
  by rewrite Nat2Z.id, lookup_index_transform_values, tag_unsigned_integer.
Qed.

Lemma get_index_by_enum_round_trip_witness :
  Z.of_nat (length [7; 5; 3]) < 2 ^ 64
  ∧ NoDup (core_types.of_uint64 <$> [7; 5; 3]) ∧ (2 < length [7; 5; 3])%nat
  ∧ ∃ r, cafberiht.get_index_by_enum (get_cafberiht_array_t [7; 5; 3])
           core_types.attn_output = Some r ∧ r = 2.
Proof.
  assert (Z.of_nat (length [7; 5; 3]) < 2 ^ 64) as Hfits by reflexivity.
  assert (NoDup (core_types.of_uint64 <$> [7; 5; 3])) as Hdistinct
    by (apply (bool_decide_unpack _); vm_compute; exact I).
  assert (2 < length [7; 5; 3])%nat as Hi by (simpl; lia).
  split; [exact Hfits|]. split; [exact Hdistinct|]. split; [exact Hi|].
  destruct (get_index_by_enum_round_trip [7; 5; 3] 2 Hfits Hdistinct Hi)
    as (r & Hr & Heq & _).
  exists r. split; [exact Hr | exact Heq].
Defined.

(** X7. The sentinel is not a position: for an enumerator that no entry
    encodes, the position query returns 2^64 - 1, and positional access at
    the value returned stops at the [get_core_by_index_oob] diagnostic that
    carries 2^64 - 1; for an enumerator that some entry encodes the value
    returned is below the width. *)
Theorem get_index_by_enum_sentinel (A : list Z) (e : core_types) :
  Z.of_nat (length A) < 2 ^ 64 →
  ∃ r, cafberiht.get_index_by_enum (get_cafberiht_array_t A) e = Some r
    ∧ ((∀ i : nat, (i < length A)%nat → core_types.of_uint64 (A !!! i) ≠ e) →
       r = 2 ^ 64 - 1
       ∧ cafberiht.get_core_by_index (get_cafberiht_array_t A) r
         = ill_formed
             (incomplete_type
                (printer_impl get_core_by_index_oob
                              [val_inserter [2 ^ 64 - 1]])))
    ∧ ((∃ i : nat, (i < length A)%nat ∧ core_types.of_uint64 (A !!! i) = e) →
       0 ≤ r < cafberiht.size (get_cafberiht_array_t A)).
Proof.
  intros Hfits.
  destruct (get_index_by_enum_result A e Hfits) as (r & Hr & Hanswer).
  exists r. split; [done|].
  rewrite size_get_cafberiht_array_t. split.
  - intros Habsent.
    destruct Hanswer as [(i & Hi & _ & Hat & _)|[-> _]];
      [by destruct (Habsent i)|].
    split; [done|]. unfold cafberiht.get_core_by_index.
    rewrite size_get_cafberiht_array_t.
    by rewrite (proj2 (Z.ltb_ge (2 ^ 64 - 1) _)) by lia.
  - intros (i & Hi & Hat).
    destruct Hanswer as [(i' & Hi' & -> & _)|[_ Hnone]]; [lia|].
    by destruct (Hnone i).
Qed.

Lemma get_index_by_enum_sentinel_witness :
  Z.of_nat (length [0; 1; 2]) < 2 ^ 64
  ∧ (∀ i : nat, (i < length [0; 1; 2])%nat →
                core_types.of_uint64 ([0; 1; 2] !!! i) ≠ core_types.count)
  ∧ ∃ r, cafberiht.get_index_by_enum (get_cafberiht_array_t [0; 1; 2])
           core_types.count = Some r ∧ r = 2 ^ 64 - 1.
Proof.
  assert (Z.of_nat (length [0; 1; 2]) < 2 ^ 64) as Hfits by reflexivity.
  assert (∀ i : nat, (i < length [0; 1; 2])%nat →
            core_types.of_uint64 ([0; 1; 2] !!! i) ≠ core_types.count)
    as Habsent.
  { intros i Hi. simpl in Hi.
    destruct i as [|[|[|i]]]; [discriminate..|lia]. }
  split; [exact Hfits|]. split; [exact Habsent|].
  destruct (get_index_by_enum_sentinel [0; 1; 2] core_types.count Hfits)
    as (r & Hr & Hsentinel & _).
  exists r. split; [exact Hr | exact (proj1 (Hsentinel Habsent))].
Defined.

(** ** The aggregator and the container type built from it *)

(** X8. The default aggregator of width [W] has [W] entries and its entry at
    every position [i] below [W] is [i]; there is no entry at or beyond
    [W]. *)
Theorem core_aggregator_entries (cafberiht_width i : nat) :
  length (core_aggregator cafberiht_width) = cafberiht_width
  ∧ ((i < cafberiht_width)%nat →
     core_aggregator cafberiht_width !! i = Some (Z.of_nat i))
  ∧ ((cafberiht_width ≤ i)%nat → core_aggregator cafberiht_width !! i = None).
Proof.
  rewrite core_aggregator_values. split_and!.
  - by rewrite length_fmap, length_seq.
  - intros Hi. by rewrite list_lookup_fmap, lookup_seq_lt.
  - intros Hi. by rewrite list_lookup_fmap, lookup_seq_ge.
Qed.

Lemma core_aggregator_entries_witness :
  (3 < 5)%nat ∧ core_aggregator 5 !! 3%nat = Some 3
  ∧ (5 ≤ 7)%nat ∧ core_aggregator 5 !! 7%nat = None.
Proof.
  assert (3 < 5)%nat as Hin by lia.
  assert (5 ≤ 7)%nat as Hout by lia.
  split; [exact Hin|]. split; [|split; [exact Hout|]].
  - exact (proj1 (proj2 (core_aggregator_entries 5 3)) Hin).
  - exact (proj2 (proj2 (core_aggregator_entries 5 7)) Hout).
Defined.

(** X9. Round trip of the aggregator through the container type: the
    container has one base per entry, its position table holds at each
    position the entry converted to [core_types] and back, and so, when
    every entry is below 2^31, the position table is the aggregator. *)
Theorem index_transform_values_round_trip (A : list Z) :
  cafberiht.size (get_cafberiht_array_t A) = Z.of_nat (length A)
  ∧ cafberiht.index_transform_values (get_cafberiht_array_t A)
    = (λ v, to_uint64 (to_int v)) <$> A
  ∧ (Forall (λ v, 0 ≤ v < 2 ^ 31) A →
     cafberiht.index_transform_values (get_cafberiht_array_t A) = A).
Proof.
  assert (cafberiht.index_transform_values (get_cafberiht_array_t A)
          = (λ v, to_uint64 (to_int v)) <$> A) as Htable.
  { unfold cafberiht.index_transform_values.
    rewrite bases_get_cafberiht_array_t. by rewrite <- list_fmap_compose. }
  split_and!; [apply size_get_cafberiht_array_t|done|].
  intros Hrange. rewrite Htable. rewrite <- (list_fmap_id A) at 2.
  apply list_fmap_ext. intros i v Hv.
  rewrite Forall_forall in Hrange.
  pose proof (Hrange v (list_elem_of_lookup_2 _ _ _ Hv)).
  rewrite to_int_small, to_uint64_small; [done|lia..].
Qed.

Lemma index_transform_values_round_trip_witness :
  Forall (λ v, 0 ≤ v < 2 ^ 31) [7; 5; 3]
  ∧ cafberiht.index_transform_values (get_cafberiht_array_t [7; 5; 3])
    = [7; 5; 3].
Proof.
  assert (Forall (λ v, 0 ≤ v < 2 ^ 31) [7; 5; 3]) as Hrange.
  { repeat (apply Forall_cons; split;
              [split; [discriminate | reflexivity]|]).
    apply Forall_nil_2. }
  split; [exact Hrange|].
  exact (proj2 (proj2 (index_transform_values_round_trip [7; 5; 3])) Hrange).
Defined.

(** The default aggregator of a width up to 2^31 has pairwise distinct
    enumerators, the enumerator at position [i] having value [i]. *)
Lemma core_aggregator_range (W : nat) :
  Z.of_nat W ≤ 2 ^ 31 → Forall (λ v, 0 ≤ v < 2 ^ 31) (core_aggregator W).
Proof.
  intros HW. rewrite core_aggregator_values. apply Forall_forall.
  intros v (i & -> & Hi%elem_of_seq)%list_elem_of_fmap. lia.
Qed.

Lemma core_aggregator_distinct (W : nat) :
  Z.of_nat W ≤ 2 ^ 31 → NoDup (core_types.of_uint64 <$> core_aggregator W).
Proof.
  intros HW. apply distinct_entries_distinct_enumerators.
  - by apply core_aggregator_range.
  - rewrite core_aggregator_values.
    apply NoDup_fmap_2; [apply Nat2Z.inj'|apply NoDup_seq].
Qed.

Lemma core_aggregator_lookup_total (W i : nat) :
  (i < W)%nat → core_aggregator W !!! i = Z.of_nat i.
Proof.
  intros Hi. apply list_lookup_total_correct.
  by rewrite core_aggregator_values, list_lookup_fmap, lookup_seq_lt.
Qed.

Lemma core_aggregator_enumerator (W i : nat) :
  Z.of_nat W ≤ 2 ^ 31 → (i < W)%nat →
  core_types.of_uint64 (core_aggregator W !!! i) = core_types.Enum (Z.of_nat i).
Proof.
  intros HW Hi. rewrite core_aggregator_lookup_total by done.
  unfold core_types.of_uint64. by rewrite to_int_small by lia.
Qed.

Lemma length_core_aggregator (W : nat) : length (core_aggregator W) = W.
Proof. by rewrite core_aggregator_values, length_fmap, length_seq. Qed.

(** X10. In the container of the default aggregator, for a width from 1 to
    2^31, the class definition compiles and the element of the enumerator
    with value [n] is at position [n]: positional access at [n], tag-keyed
    access at that enumerator and the position query agree, for every [n]
    below the width; for an enumerator value from the width up, the position
    query returns the sentinel. *)
Theorem default_container_positions (cafberiht_width n : nat) :
  (1 ≤ cafberiht_width)%nat → Z.of_nat cafberiht_width ≤ 2 ^ 31 →
  let C := get_cafberiht_array_t (core_aggregator cafberiht_width) in
  cafberiht.class_definition C = well_formed ()
  ∧ ((n < cafberiht_width)%nat →
     cafberiht.get_core_by_index C (Z.of_nat n)
     = well_formed (base_subobject n)
     ∧ cafberiht.get_core_by_enum C (core_types.Enum (Z.of_nat n))
       = well_formed (base_subobject n)
     ∧ cafberiht.get_index_by_enum C (core_types.Enum (Z.of_nat n))
       = Some (Z.of_nat n))
  ∧ ((cafberiht_width ≤ n)%nat → Z.of_nat n < 2 ^ 31 →
     cafberiht.get_index_by_enum C (core_types.Enum (Z.of_nat n))
     = Some (2 ^ 64 - 1)).
Proof.
  intros H1 HW C. subst C.
  pose proof (core_aggregator_distinct _ HW) as Hdistinct.
  pose proof (length_core_aggregator cafberiht_width) as Hlen.
  assert (Z.of_nat (length (core_aggregator cafberiht_width)) < 2 ^ 64)
    as Hfits by (rewrite Hlen; lia).
  split_and!.
  - apply class_definition_ok; [done|]. intros Hnil.
    rewrite Hnil in Hlen. simpl in Hlen. lia.
  - intros Hn.
    assert (n < length (core_aggregator cafberiht_width))%nat as Hn'
      by (by rewrite Hlen).
    pose proof (operator_subscript_position _ n Hdistinct Hn') as Htag.
    rewrite core_aggregator_enumerator in Htag by done.
    split_and!.
    + rewrite get_core_by_index_in_bounds
        by (rewrite size_get_cafberiht_array_t; lia).
      rewrite Nat2Z.id, lookup_index_transform_values by done.
      rewrite tag_unsigned_integer.
      by rewrite core_aggregator_enumerator.
    + unfold cafberiht.get_core_by_enum. by rewrite tag_unsigned_integer.
    + rewrite <- (core_aggregator_enumerator cafberiht_width n) by done.
      by apply get_index_by_enum_position.
  - intros Hn Hrange.
    destruct (get_index_by_enum_result (core_aggregator cafberiht_width)
                (core_types.Enum (Z.of_nat n)) Hfits) as (r & Hr & Hanswer).
    rewrite Hr. f_equal.
    destruct Hanswer as [(i & Hi & _ & Hat & _)|[-> _]]; [|done].
    rewrite Hlen in Hi. rewrite core_aggregator_enumerator in Hat by done.
    injection Hat as Hat. lia.
Qed.

Lemma default_container_positions_witness :
  (1 ≤ 10)%nat ∧ Z.of_nat 10 ≤ 2 ^ 31 ∧ (7 < 10)%nat
  ∧ cafberiht.get_index_by_enum (get_cafberiht_array_t (core_aggregator 10))
      core_types.ffn_down = Some 7
  ∧ (10 ≤ 12)%nat ∧ Z.of_nat 12 < 2 ^ 31
  ∧ cafberiht.get_index_by_enum (get_cafberiht_array_t (core_aggregator 10))
      core_types.ffn_norm = Some (2 ^ 64 - 1).
Proof.
  assert (1 ≤ 10)%nat as H1 by lia.
  assert (Z.of_nat 10 ≤ 2 ^ 31) as HW by discriminate.
  assert (7 < 10)%nat as Hin by lia.
  assert (10 ≤ 12)%nat as Hout by lia.
  assert (Z.of_nat 12 < 2 ^ 31) as Hrange by reflexivity.
  split; [exact H1|]. split; [exact HW|]. split; [exact Hin|].
  split; [|split; [exact Hout|split; [exact Hrange|]]].
  - exact (proj2 (proj2 (proj1 (proj2
             (default_container_positions 10 7 H1 HW)) Hin))).
  - exact (proj2 (proj2 (default_container_positions 10 12 H1 HW))
             Hout Hrange).
Defined.

(** * Further properties of the walk *)

(** X11. When the mixin's filter admits every base of the container, the walk
    unrolls to one call per base, in the order of the bases pack, and running
    it applies the action once per base in that order. *)
Theorem walk_admits_all {object arg_types State : Type}
    (mixin : mixin_type object arg_types State) (C : cafberiht) :
  (∀ b, b ∈ cafberiht.bases C → mixin_type.filter mixin b = true) →
  walk.calls mixin C = well_formed (cafberiht.bases C)
  ∧ ∃ f, walk.impl mixin C = well_formed f
         ∧ ∀ this args st,
             f this args st
             = foldl (λ st b, mixin_type.impl mixin b this args st) st
                     (cafberiht.bases C).
Proof.
  intros Hall.
  assert (List.filter (mixin_type.filter mixin) (cafberiht.bases C)
          = cafberiht.bases C) as Hfilter.
  { induction (cafberiht.bases C) as [|b l IH]; [done|]. simpl.
    rewrite Hall by left. f_equal. apply IH. intros b' Hb'. apply Hall.
    by right. }
  split.
  - by rewrite calls_filter, Hfilter.
  - eexists. split; [apply impl_run|]. intros this args st.
    simpl. by rewrite Hfilter.
Qed.

(** A mixin that admits everything and counts its calls. *)
Lemma walk_admits_all_witness :
  (∀ b, b ∈ cafberiht.bases (get_cafberiht_array_t [0; 1; 2; 3]) →
        mixin_type.filter
          (mixin_type.Build (λ _, true) (λ _ (_ _ : unit) (st : nat), S st))
          b = true)
  ∧ ∃ f, walk.impl
           (mixin_type.Build (λ _, true) (λ _ (_ _ : unit) (st : nat), S st))
           (get_cafberiht_array_t [0; 1; 2; 3]) = well_formed f
         ∧ f () () 0%nat = 4%nat.
Proof.
  assert (∀ b, b ∈ cafberiht.bases (get_cafberiht_array_t [0; 1; 2; 3]) →
            mixin_type.filter
              (mixin_type.Build (λ _, true)
                                (λ _ (_ _ : unit) (st : nat), S st))
              b = true) as Hall by (intros b _; reflexivity).
  split; [exact Hall|].
  destruct (proj2 (walk_admits_all _ _ Hall)) as (f & Hf & Hrun).
  exists f. split; [exact Hf|]. rewrite Hrun. reflexivity.
Defined.

(** X12. The walk is a fold over the bases pack: for the container built from
    the concatenation of two aggregators, the call sequence is that of the
    first followed by that of the second, and running it is running the
    first and then the second. *)
Theorem walk_concatenation {object arg_types State : Type}
    (mixin : mixin_type object arg_types State) (A B : list Z) :
  ∃ first second,
    walk.calls mixin (get_cafberiht_array_t A) = well_formed first
    ∧ walk.calls mixin (get_cafberiht_array_t B) = well_formed second
    ∧ walk.calls mixin (get_cafberiht_array_t (A ++ B))
      = well_formed (first ++ second)
    ∧ ∀ this args st,
        walk.run mixin this args (first ++ second) st
        = walk.run mixin this args second (walk.run mixin this args first st).
Proof.
  eexists _, _. split_and!; [apply calls_filter..| |].
  - rewrite calls_filter, !bases_get_cafberiht_array_t, fmap_app.
    by rewrite List.filter_app.
  - intros this args st. unfold walk.run. apply foldl_app.
Qed.

(** ** The addition mixin *)

Lemma to_uint64_parity (z : Z) : to_uint64 z mod 2 = z mod 2.
Proof.
  unfold to_uint64. change (2 ^ 64) with 18446744073709551616.
  Z.div_mod_to_equations. lia.
Qed.

Lemma of_nat_parity (i : nat) : (Z.of_nat i mod 2 =? 0) = Nat.even i.
Proof.
  rewrite <- Zeven_mod. destruct (Nat.even i) eqn:Hi.
  - apply Nat.even_spec in Hi as [k ->]. rewrite Nat2Z.inj_mul.
    by rewrite Z.even_mul.
  - apply (f_equal negb) in Hi. rewrite Nat.negb_even in Hi. simpl in Hi.
    apply Nat.odd_spec in Hi as [k ->].
    rewrite Nat2Z.inj_add, Nat2Z.inj_mul.
    rewrite Z.even_add, Z.even_mul. reflexivity.
Qed.

(** X13. [addition_mixin] admits a base exactly when the value of its
    enumerator is even; the conversion to [uint64_t] keeps the parity, also
    of a negative value. *)
Theorem addition_mixin_filter_parity {rand_state : Type}
    (rand : rand_state → Z * rand_state) (b : core_interface) :
  mixin_type.filter (harness.addition_mixin rand) b
  = Z.even (core_types.underlying (enum_value b)).
Proof.
  simpl. unfold core_types.to_uint64.
  by rewrite to_uint64_parity, <- Zeven_mod.
Qed.

Section addition_runs.
Context {rand_state : Type}.
Variable rand : rand_state → Z * rand_state.

Lemma addition_mixin_run (l : list core_interface) (elements : list Z)
    (v : Z) (p : harness.process) :
  0 ≤ v < 2 ^ 64 →
  walk.run (harness.addition_mixin rand) harness.cafberiht_val_lvalue
    harness.value_lvalue l (harness.Machine elements v p)
  = harness.Machine elements
      (to_uint64 (v + sum_Z (rand_draws rand (length l) (harness.generator p)).1))
      (harness.Process (rand_draws rand (length l) (harness.generator p)).2
                       (harness.cout p)).
Proof.
  revert v p. induction l as [|b l IH]; intros v p Hv.
  - simpl. rewrite Z.add_0_r, to_uint64_small by done. by destruct p.
  - change (walk.run (harness.addition_mixin rand)
              harness.cafberiht_val_lvalue harness.value_lvalue (b :: l)
              (harness.Machine elements v p))
      with (walk.run (harness.addition_mixin rand)
              harness.cafberiht_val_lvalue harness.value_lvalue l
              (mixin_type.impl (harness.addition_mixin rand) b
                 harness.cafberiht_val_lvalue harness.value_lvalue
                 (harness.Machine elements v p))).
    rewrite addition_mixin_impl. projections. cbn [length rand_draws].
    destruct (rand (harness.generator p)) as [r g] eqn:Hr.
    rewrite IH by apply to_uint64_range. projections.
    destruct (rand_draws rand (length l) g) as [rs g'] eqn:Hrs.
    cbn [fst snd sum_Z foldr]. fold (sum_Z rs).
    f_equal. unfold to_uint64. change (2 ^ 64) with 18446744073709551616.
    Z.div_mod_to_equations. lia.
Qed.

Lemma length_rand_draws (n : nat) (g : rand_state) :
  length (rand_draws rand n g).1 = n.
Proof.
  revert g. induction n as [|n IH]; intros g; [done|]. simpl.
  destruct (rand g) as [r g']. specialize (IH g').
  destruct (rand_draws rand n g') as [rs g'']. simpl in *. by rewrite IH.
Qed.
End addition_runs.

(** X14. Running any sequence of [n] admitted [addition_mixin] calls steps
    [rand] exactly [n] times, leaves in the accumulator its former value plus
    the [n] results modulo 2^64, and changes neither the container's elements
    nor the output. *)
Theorem addition_mixin_run_effect {rand_state : Type}
    (rand : rand_state → Z * rand_state) (l : list core_interface)
    (m : harness.machine) :
  0 ≤ harness.value m < 2 ^ 64 →
  let m' := walk.run (harness.addition_mixin rand)
              harness.cafberiht_val_lvalue harness.value_lvalue l m in
  let draws := rand_draws rand (length l)
                 (harness.generator (harness.environment m)) in
  length draws.1 = length l
  ∧ harness.value m' = to_uint64 (harness.value m + sum_Z draws.1)
  ∧ harness.generator (harness.environment m') = draws.2
  ∧ harness.cafberiht_val m' = harness.cafberiht_val m
  ∧ harness.cout (harness.environment m')
    = harness.cout (harness.environment m).
Proof.
  intros Hv m' draws. subst m' draws. destruct m as [elements v p].
  rewrite addition_mixin_run by done. simpl.
  split_and!; [apply length_rand_draws|done..].
Qed.

Lemma addition_mixin_run_effect_witness :
  0 ≤ 5 < 2 ^ 64
  ∧ harness.value
      (walk.run (harness.addition_mixin (λ s : Z, (7 * s + 3, s + 1)))
         harness.cafberiht_val_lvalue harness.value_lvalue
         [Core_interface core_types.attn_q; Core_interface core_types.attn_v]
         (harness.Machine [0; 0; 0] 5 (harness.Process 0 "")))
    = 18.
Proof.
  assert (0 ≤ 5 < 2 ^ 64) as Hv by (split; [discriminate | reflexivity]).
  split; [exact Hv|].
  exact (proj1 (proj2 (addition_mixin_run_effect
                         (λ s : Z, (7 * s + 3, s + 1))
                         [Core_interface core_types.attn_q;
                          Core_interface core_types.attn_v]
                         (harness.Machine [0; 0; 0] 5 (harness.Process 0 ""))
                         Hv))).
Defined.

(** ** The harness at any width *)

Section default_walk.
Context {rand_state : Type}.
Variable rand : rand_state → Z * rand_state.

Lemma default_bases (W : nat) :
  Z.of_nat W ≤ 2 ^ 31 →
  cafberiht.bases (get_cafberiht_array_t (core_aggregator W))
  = (λ i, Core_interface (core_types.Enum (Z.of_nat i))) <$> seq 0 W.
Proof.
  intros HW. rewrite bases_get_cafberiht_array_t, core_aggregator_values.
  rewrite <- list_fmap_compose. apply list_fmap_ext.
  intros k i [-> Hi]%lookup_seq. simpl. unfold core_types.of_uint64.
  by rewrite to_int_small by lia.
Qed.

Lemma default_calls (W : nat) :
  Z.of_nat W ≤ 2 ^ 31 →
  List.filter (mixin_type.filter (harness.addition_mixin rand))
    (cafberiht.bases (get_cafberiht_array_t (core_aggregator W)))
  = (λ i, Core_interface (core_types.Enum (Z.of_nat i)))
    <$> List.filter Nat.even (seq 0 W).
Proof.
  intros HW. rewrite default_bases, filter_fmap by done. f_equal.
  apply filter_ext_in. intros i _. simpl. unfold core_types.to_uint64.
  simpl. by rewrite to_uint64_parity, of_nat_parity.
Qed.
End default_walk.

Lemma length_filter_even (W : nat) :
  length (List.filter Nat.even (seq 0 W)) = Nat.div2 (S W).
Proof.
  induction W as [|W IH]; [done|].
  rewrite seq_S, List.filter_app, length_app, IH. simpl List.filter.
  change (Nat.div2 (S (S W))) with (S (Nat.div2 W)).
  destruct (Nat.even W) eqn:HW; simpl length.
  - apply Nat.even_spec, Nat.Even_div2 in HW. lia.
  - apply (f_equal negb) in HW. rewrite Nat.negb_even in HW. simpl in HW.
    apply Nat.odd_spec, Nat.Odd_div2 in HW. lia.
Qed.

(** X15. For the default aggregator of any width [W] up to 2^31, the walk
    with [addition_mixin] unrolls to the calls on the elements at the even
    positions below [W], in ascending order: half of [W], rounded up, calls
    in all. *)
Theorem default_walk_even_positions {rand_state : Type}
    (rand : rand_state → Z * rand_state) (cafberiht_width : nat) :
  Z.of_nat cafberiht_width ≤ 2 ^ 31 →
  ∃ indices : list nat,
    walk.calls (harness.addition_mixin rand)
      (get_cafberiht_array_t (core_aggregator cafberiht_width))
    = well_formed
        ((λ i, Core_interface (core_types.Enum (Z.of_nat i))) <$> indices)
    ∧ (∀ i : nat, i ∈ indices ↔
                  (i < cafberiht_width)%nat ∧ Nat.even i = true)
    ∧ StronglySorted lt indices
    ∧ length indices = Nat.div2 (S cafberiht_width).
Proof.
  intros HW. exists (List.filter Nat.even (seq 0 cafberiht_width)).
  split_and!.
  - by rewrite calls_filter, default_calls.
  - intros i. apply elem_of_filter_seq.
  - apply filter_seq_ascending.
  - apply length_filter_even.
Qed.

Lemma default_walk_even_positions_witness :
  Z.of_nat 7 ≤ 2 ^ 31
  ∧ ∃ indices : list nat,
      walk.calls (harness.addition_mixin (λ s : Z, (7 * s + 3, s + 1)))
        (get_cafberiht_array_t (core_aggregator 7))
      = well_formed
          ((λ i, Core_interface (core_types.Enum (Z.of_nat i))) <$> indices)
      ∧ length indices = 4%nat.
Proof.
  assert (Z.of_nat 7 ≤ 2 ^ 31) as HW by discriminate.
  split; [exact HW|].
  destruct (default_walk_even_positions (λ s : Z, (7 * s + 3, s + 1)) 7 HW)
    as (indices & Hcalls & _ & _ & Hlen).
  exists indices. split; [exact Hcalls | exact Hlen].
Defined.

(** X16. [main] at any width up to 2^31.  At width 0 the program does not
    compile: the container's [empty_cafberiht_bases_pack] check fails.  At
    every width [W] from 1 it compiles, and a run steps [rand] half of [W],
    rounded up, times, prints [Final Value: ], the sum of the results modulo
    2^64 in decimal, [, For Cafberiht Width of: ], [W] in decimal and a
    newline after whatever was printed before, and returns 0. *)
Theorem main_any_width {rand_state : Type}
    (rand : rand_state → Z * rand_state) (cafberiht_width : nat)
    (p : harness.process) :
  Z.of_nat cafberiht_width ≤ 2 ^ 31 →
  (cafberiht_width = 0%nat →
   harness.main rand cafberiht_width
   = ill_formed (incomplete_type (printer_impl empty_cafberiht_bases_pack [])))
  ∧ ((1 ≤ cafberiht_width)%nat →
     let draws := rand_draws rand (Nat.div2 (S cafberiht_width))
                    (harness.generator p) in
     length draws.1 = Nat.div2 (S cafberiht_width)
     ∧ decimal (pretty (to_uint64 (sum_Z draws.1))) = true
     ∧ decimal (pretty cafberiht_width) = true
     ∧ ∃ program,
         harness.main rand cafberiht_width = well_formed program
         ∧ program p
           = (0, harness.Process draws.2
                   (harness.cout p +:+ "Final Value: "
                    +:+ pretty (to_uint64 (sum_Z draws.1))
                    +:+ ", For Cafberiht Width of: "
                    +:+ pretty cafberiht_width +:+ harness.endl))).
Proof.
  intros HW. split.
  - intros ->. reflexivity.
  - intros H1 draws. subst draws. split_and!.
    + apply length_rand_draws.
    + apply pretty_uint64_decimal.
    + apply pretty_N_decimal.
    + unfold harness.main.
      rewrite class_definition_ok.
      * rewrite impl_run. eexists. split; [reflexivity|]. cbv beta zeta.
        rewrite addition_mixin_run by (split; [done|reflexivity]).
        rewrite default_calls by done.
        rewrite length_fmap, length_filter_even. by rewrite Z.add_0_l.
      * by apply core_aggregator_distinct.
      * intros Hnil. pose proof (length_core_aggregator cafberiht_width) as Hl.
        rewrite Hnil in Hl. simpl in Hl. lia.
Qed.

Lemma main_any_width_witness :
  Z.of_nat 3 ≤ 2 ^ 31 ∧ (1 ≤ 3)%nat
  ∧ ∃ program,
      harness.main (λ s : Z, (7 * s + 3, s + 1)) 3 = well_formed program
      ∧ program (harness.Process 0 "")
        = (0, harness.Process 2
                ("Final Value: 13, For Cafberiht Width of: 3"
                 +:+ harness.endl)).
Proof.
  assert (Z.of_nat 3 ≤ 2 ^ 31) as HW by discriminate.
  assert (1 ≤ 3)%nat as H1 by lia.
  split; [exact HW|]. split; [exact H1|].
  destruct (proj2 (main_any_width (λ s : Z, (7 * s + 3, s + 1)) 3
                     (harness.Process 0 "") HW) H1)
    as (_ & _ & _ & program & Hmain & Hrun).
  exists program. split; [exact Hmain | exact Hrun].
Defined.

(** * Further properties of the compile-time checks *)

Lemma repeated_base_None_inv (l : list core_interface) :
  cafberiht.repeated_base l = None → NoDup l.
Proof.
  induction l as [|b l IH]; [constructor|]. simpl.
  case_bool_decide as Hb; [done|]. intros Hl. constructor; auto.
Qed.

Lemma repeated_base_Some (l : list core_interface) (b : core_interface) :
  cafberiht.repeated_base l = Some b →
  ∃ i j : nat, i ≠ j ∧ l !! i = Some b ∧ l !! j = Some b.
Proof.
  induction l as [|a l IH]; [done|]. simpl. case_bool_decide as Ha.
  - intros [= ->]. apply list_elem_of_lookup in Ha as [j Hj].
    by exists 0%nat, (S j).
  - intros (i & j & Hne & Hi & Hj)%IH. exists (S i), (S j).
    split_and!; [lia|done..].
Qed.

Lemma NoDup_bases (A : list Z) :
  NoDup (cafberiht.bases (get_cafberiht_array_t A))
  ↔ NoDup (core_types.of_uint64 <$> A).
Proof.
  rewrite bases_get_cafberiht_array_t.
  rewrite (list_fmap_compose core_types.of_uint64 Core_interface).
  assert (Inj (=) (=) Core_interface) as Hinj by (by intros ?? [= ?]).
  apply (NoDup_fmap Core_interface).
Qed.

(** X17. The container type built from an aggregator compiles exactly when
    the aggregator is not empty and its enumerators are pairwise distinct.
    When two entries encode the same enumerator, the class definition stops
    at a base named twice, and that base is the element type of an
    enumerator found at two different positions. *)
Theorem class_definition_cases (A : list Z) :
  (cafberiht.class_definition (get_cafberiht_array_t A) = well_formed ()
   ↔ A ≠ [] ∧ NoDup (core_types.of_uint64 <$> A))
  ∧ (¬ NoDup (core_types.of_uint64 <$> A) →
     ∃ (b : core_interface) (i j : nat),
       cafberiht.class_definition (get_cafberiht_array_t A)
       = ill_formed (duplicate_base_class b)
       ∧ i ≠ j ∧ (i < length A)%nat ∧ (j < length A)%nat
       ∧ b = Core_interface (core_types.of_uint64 (A !!! i))
       ∧ core_types.of_uint64 (A !!! i) = core_types.of_uint64 (A !!! j)).
Proof.
  split; [split|].
  - unfold cafberiht.class_definition.
    destruct (cafberiht.repeated_base _) as [b|] eqn:Hrep; [done|].
    intros Hpack. split.
    + intros ->. discriminate Hpack.
    + by apply NoDup_bases, repeated_base_None_inv.
  - intros [Hne Hdistinct]. by apply class_definition_ok.
  - intros Hdup. unfold cafberiht.class_definition.
    destruct (cafberiht.repeated_base _) as [b|] eqn:Hrep.
    + apply repeated_base_Some in Hrep as (i & j & Hne & Hi & Hj).
      apply lookup_bases_Some in Hi as [Hi ->].
      apply lookup_bases_Some in Hj as [Hj [= Heq]].
      exists (Core_interface (core_types.of_uint64 (A !!! i))), i, j.
      split_and!; [done..|]. unfold core_types.of_uint64. by rewrite Heq.
    + destruct Hdup. by apply NoDup_bases, repeated_base_None_inv.
Qed.

Lemma class_definition_cases_witness :
  ¬ NoDup (core_types.of_uint64 <$> [4; 9; 4])
  ∧ ∃ b, cafberiht.class_definition (get_cafberiht_array_t [4; 9; 4])
         = ill_formed (duplicate_base_class b).
Proof.
  assert (¬ NoDup (core_types.of_uint64 <$> [4; 9; 4])) as Hdup.
  { apply (bool_decide_unpack (¬ NoDup (core_types.of_uint64 <$> [4; 9; 4]))).
    vm_compute. exact I. }
  split; [exact Hdup|].
  destruct (proj2 (class_definition_cases [4; 9; 4]) Hdup)
    as (b & _ & _ & Hclass & _).
  exists b. exact Hclass.
Defined.

(** X18. The [invalid_base_cast] guard of [impl_internal_filtered] sits inside
    the filter test: for a type that is not a base of the container, the
    expansion stops at the [invalid_base_cast] diagnostic when the mixin's
    filter admits the type, and is silently empty when the filter rejects
    it. *)
Theorem impl_internal_filtered_foreign {object arg_types State : Type}
    (mixin : mixin_type object arg_types State) (C : cafberiht)
    (base_type : core_interface) :
  base_type ∉ cafberiht.bases C →
  walk.impl_internal_filtered mixin C base_type
  = if mixin_type.filter mixin base_type
    then ill_formed (incomplete_type (printer_impl invalid_base_cast []))
    else well_formed [].
Proof.
  intros Hforeign. unfold walk.impl_internal_filtered, walk.is_base_of.
  destruct (mixin_type.filter mixin base_type); [|done].
  by rewrite bool_decide_eq_false_2.
Qed.

Lemma impl_internal_filtered_foreign_witness :
  (Core_interface core_types.count
     ∉ cafberiht.bases (get_cafberiht_array_t [0; 1; 2]))
  ∧ walk.impl_internal_filtered
      (harness.addition_mixin (λ s : Z, (7 * s + 3, s + 1)))
      (get_cafberiht_array_t [0; 1; 2]) (Core_interface core_types.count)
    = ill_formed (incomplete_type (printer_impl invalid_base_cast [])).
Proof.
  assert (Core_interface core_types.count
            ∉ cafberiht.bases (get_cafberiht_array_t [0; 1; 2])) as Hforeign.
  { apply (bool_decide_unpack
             (Core_interface core_types.count
                ∉ cafberiht.bases (get_cafberiht_array_t [0; 1; 2]))).
    vm_compute. exact I. }
  split; [exact Hforeign|].
  exact (impl_internal_filtered_foreign
           (harness.addition_mixin (λ s : Z, (7 * s + 3, s + 1)))
           (get_cafberiht_array_t [0; 1; 2]) (Core_interface core_types.count)
           Hforeign).
Defined.

(** * Members used on a container *)

(** The statements of this part are about a member as a program uses it:
    through [cafberiht.member_access], so after the class definition. *)

Section member_access_facts.
Context {X : Type}.
Implicit Types (C : cafberiht) (member : compiled X).

Lemma member_access_well_formed C member :
  cafberiht.class_definition C = well_formed () →
  cafberiht.member_access C member = member.
Proof. intros H. unfold cafberiht.member_access. by rewrite H. Qed.

Lemma member_access_ill_formed C member d :
  cafberiht.class_definition C = ill_formed d →
  cafberiht.member_access C member = ill_formed d.
Proof. intros H. unfold cafberiht.member_access. by rewrite H. Qed.

Lemma member_access_inv C member x :
  cafberiht.member_access C member = well_formed x →
  cafberiht.class_definition C = well_formed () ∧ member = well_formed x.
Proof.
  unfold cafberiht.member_access.
  by destruct (cafberiht.class_definition C) as [[]|d].
Qed.
End member_access_facts.

Lemma class_definition_well_formed_inv (C : cafberiht) :
  cafberiht.class_definition C = well_formed () →
  cafberiht.bases C ≠ [] ∧ NoDup (cafberiht.bases C).
Proof.
  unfold cafberiht.class_definition.
  destruct (cafberiht.repeated_base _) as [b|] eqn:Hrep; [done|].
  intros Hpack. split; [|by apply repeated_base_None_inv].
  intros Hnil. unfold cafberiht.pack_not_empty in Hpack.
  rewrite Hnil in Hpack. discriminate Hpack.
Qed.

Lemma class_definition_empty :
  cafberiht.class_definition (get_cafberiht_array_t [])
  = ill_formed (incomplete_type (printer_impl empty_cafberiht_bases_pack [])).
Proof. reflexivity. Qed.

(** With a repeated enumerator the class definition stops at a base named
    twice. *)
Lemma class_definition_repeated (A : list Z) :
  ¬ NoDup (core_types.of_uint64 <$> A) →
  ∃ (b : core_interface) (i j : nat),
    cafberiht.class_definition (get_cafberiht_array_t A)
    = ill_formed (duplicate_base_class b)
    ∧ i ≠ j ∧ (i < length A)%nat ∧ (j < length A)%nat
    ∧ b = Core_interface (core_types.of_uint64 (A !!! i))
    ∧ core_types.of_uint64 (A !!! i) = core_types.of_uint64 (A !!! j).
Proof.
  intros Hdup. unfold cafberiht.class_definition.
  destruct (cafberiht.repeated_base _) as [b|] eqn:Hrep.
  - apply repeated_base_Some in Hrep as (i & j & Hne & Hi & Hj).
    apply lookup_bases_Some in Hi as [Hi ->].
    apply lookup_bases_Some in Hj as [Hj [= Heq]].
    exists (Core_interface (core_types.of_uint64 (A !!! i))), i, j.
    split_and!; [done..|]. unfold core_types.of_uint64. by rewrite Heq.
  - destruct Hdup. by apply NoDup_bases, repeated_base_None_inv.
Qed.

(** Two positions that encode one enumerator make the enumerators not
    pairwise distinct. *)
Lemma repeated_enumerator_not_distinct (A : list Z) (i j : nat) :
  i ≠ j → (i < length A)%nat → (j < length A)%nat →
  core_types.of_uint64 (A !!! i) = core_types.of_uint64 (A !!! j) →
  ¬ NoDup (core_types.of_uint64 <$> A).
Proof.
  intros Hne Hi Hj Heq Hdistinct. apply Hne.
  apply (NoDup_lookup _ i j (core_types.of_uint64 (A !!! i)) Hdistinct).
  - by apply lookup_decoded.
  - rewrite Heq. by apply lookup_decoded.
Qed.

Lemma bases_representable_get_cafberiht_array_t (A : list Z) :
  bases_representable (get_cafberiht_array_t A).
Proof.
  unfold bases_representable. rewrite bases_get_cafberiht_array_t.
  apply Forall_fmap, Forall_forall. intros v _. apply of_uint64_representable.
Qed.

(** In a class that compiles, positional access within bounds refers to the
    base at the position. *)
Lemma get_core_by_index_well_formed (C : cafberiht) (n : Z) :
  cafberiht.class_definition C = well_formed () → bases_representable C →
  0 ≤ n < cafberiht.size C →
  cafberiht.get_core_by_index C n = well_formed (base_subobject (Z.to_nat n)).
Proof.
  intros [_ Hdistinct]%class_definition_well_formed_inv Hrepr Hn.
  rewrite get_core_by_index_in_bounds by done.
  destruct (lookup_lt_is_Some_2 (cafberiht.bases C) (Z.to_nat n))
    as [b Hb]; [unfold cafberiht.size in Hn; lia|].
  assert (cafberiht.index_transform_values C !!! Z.to_nat n
          = core_types.to_uint64 (enum_value b)) as ->.
  { apply list_lookup_total_correct. unfold cafberiht.index_transform_values.
    by rewrite list_lookup_fmap, Hb. }
  rewrite tag_unsigned_integer.
  apply (operator_subscript_unique C _ (Z.to_nat n) b); [done..|].
  intros j b' Hj [= Hkey].
  unfold bases_representable in Hrepr. rewrite Forall_forall in Hrepr.
  assert (b' = b) as ->.
  { destruct b as [e], b' as [e']. f_equal.
    apply core_types_to_uint64_inj; [| |done].
    - apply (Hrepr _ (list_elem_of_lookup_2 _ _ _ Hj)).
    - apply (Hrepr _ (list_elem_of_lookup_2 _ _ _ Hb)). }
  by apply (NoDup_lookup _ j (Z.to_nat n) b Hdistinct).
Qed.

(** ** Positional access on a container *)

(** C5. For every container, that is every pack of element types of
    [core_types] values for which the class definition compiles, and every
    index [n] at or beyond its width,
    [get_core_by_index<n>] stops at the diagnostic that spells
    [static_assert_printer_impl<get_core_by_index_oob,
    error_printer_val_inserter<n>>], which carries the kind and the value
    [n]; for every [n] below the width no diagnostic is raised at all: the
    access compiles and yields the reference to the base at position [n].
    The bounds check by itself behaves so on every pack. *)
Theorem get_core_by_index_bounds_check (C : cafberiht) (n : Z) :
  (cafberiht.size C ≤ n →
   cafberiht.get_core_by_index C n
   = ill_formed (incomplete_type
                   (printer_impl get_core_by_index_oob [val_inserter [n]])))
  ∧ (0 ≤ n < cafberiht.size C →
     static_assert
       (static_assert_printer (n <? cafberiht.size C) get_core_by_index_oob
                              [val_inserter [n]]) = well_formed ()
     ∧ ∀ vs, cafberiht.get_core_by_index C n
             ≠ ill_formed (incomplete_type
                             (printer_impl get_core_by_index_oob vs)))
  ∧ (cafberiht.class_definition C = well_formed () → bases_representable C →
     (cafberiht.size C ≤ n →
      cafberiht.member_access C (cafberiht.get_core_by_index C n)
      = ill_formed (incomplete_type
                      (printer_impl get_core_by_index_oob [val_inserter [n]])))
     ∧ (0 ≤ n < cafberiht.size C →
        cafberiht.member_access C (cafberiht.get_core_by_index C n)
        = well_formed (base_subobject (Z.to_nat n)))).
Proof.
  assert (cafberiht.size C ≤ n →
          cafberiht.get_core_by_index C n
          = ill_formed (incomplete_type
                          (printer_impl get_core_by_index_oob
                                        [val_inserter [n]]))) as Hout.
  { intros Hn. unfold cafberiht.get_core_by_index.
    by rewrite (proj2 (Z.ltb_ge n _)) by lia. }
  split_and!.
  - exact Hout.
  - intros Hn. split.
    + by rewrite (proj2 (Z.ltb_lt n _)) by lia.
    + intros vs. rewrite get_core_by_index_in_bounds by done.
      apply operator_subscript_not_printer.
  - intros Hclass Hrepr. split; intros Hn.
    + rewrite member_access_well_formed by done. by apply Hout.
    + rewrite member_access_well_formed by done.
      by apply get_core_by_index_well_formed.
Qed.

Lemma get_core_by_index_bounds_check_witness :
  cafberiht.class_definition (get_cafberiht_array_t [7; 5; 3]) = well_formed ()
  ∧ bases_representable (get_cafberiht_array_t [7; 5; 3])
  ∧ cafberiht.size (get_cafberiht_array_t [7; 5; 3]) ≤ 3
  ∧ cafberiht.member_access (get_cafberiht_array_t [7; 5; 3])
      (cafberiht.get_core_by_index (get_cafberiht_array_t [7; 5; 3]) 3)
    = ill_formed (incomplete_type
                    (printer_impl get_core_by_index_oob [val_inserter [3]]))
  ∧ 0 ≤ 2 < cafberiht.size (get_cafberiht_array_t [7; 5; 3])
  ∧ cafberiht.member_access (get_cafberiht_array_t [7; 5; 3])
      (cafberiht.get_core_by_index (get_cafberiht_array_t [7; 5; 3]) 2)
    = well_formed (base_subobject 2).
Proof.
  assert (cafberiht.class_definition (get_cafberiht_array_t [7; 5; 3])
          = well_formed ()) as Hclass by reflexivity.
  assert (bases_representable (get_cafberiht_array_t [7; 5; 3])) as Hrepr.
  { repeat (apply Forall_cons; split;
              [vm_compute; split; [discriminate | reflexivity]|]).
    apply Forall_nil_2. }
  assert (cafberiht.size (get_cafberiht_array_t [7; 5; 3]) ≤ 3) as Hout
    by (vm_compute; discriminate).
  assert (0 ≤ 2 < cafberiht.size (get_cafberiht_array_t [7; 5; 3])) as Hin
    by (vm_compute; split; [discriminate | reflexivity]).
  split; [exact Hclass|]. split; [exact Hrepr|]. split; [exact Hout|].
  split; [|split; [exact Hin|]].
  - exact (proj1 (proj2 (proj2 (get_core_by_index_bounds_check _ 3))
                    Hclass Hrepr) Hout).
  - exact (proj2 (proj2 (proj2 (get_core_by_index_bounds_check _ 2))
                    Hclass Hrepr) Hin).
Defined.

(** C4, as the code has it.  For every aggregator and every [n] below its
    width: when the enumerators are pairwise distinct, the container type
    compiles, its [n]-th element is the element of the aggregator's [n]-th
    enumerator, and [get_core_by_index<n>] compiles and yields a reference to
    that element; when an enumerator is repeated, the container type does
    not compile, it names one base twice, so neither positional access nor
    tag-keyed access at any enumerator compiles. *)
Theorem positional_access_needs_distinct (A : list Z) (n : Z) :
  0 ≤ n < Z.of_nat (length A) →
  (NoDup (core_types.of_uint64 <$> A) →
   cafberiht.class_definition (get_cafberiht_array_t A) = well_formed ()
   ∧ cafberiht.bases (get_cafberiht_array_t A) !! Z.to_nat n
     = Some (Core_interface (core_types.of_uint64 (A !!! Z.to_nat n)))
   ∧ cafberiht.get_core_by_index (get_cafberiht_array_t A) n
     = well_formed (base_subobject (Z.to_nat n))
   ∧ cafberiht.member_access (get_cafberiht_array_t A)
       (cafberiht.get_core_by_index (get_cafberiht_array_t A) n)
     = well_formed (base_subobject (Z.to_nat n)))
  ∧ (¬ NoDup (core_types.of_uint64 <$> A) →
     ∃ b : core_interface,
       cafberiht.member_access (get_cafberiht_array_t A)
         (cafberiht.get_core_by_index (get_cafberiht_array_t A) n)
       = ill_formed (duplicate_base_class b)
       ∧ ∀ e : core_types,
           cafberiht.member_access (get_cafberiht_array_t A)
             (cafberiht.get_core_by_enum (get_cafberiht_array_t A) e)
           = ill_formed (duplicate_base_class b)).
Proof.
  intros Hn. assert (Z.to_nat n < length A)%nat as Hlt by lia. split.
  - intros Hdistinct.
    assert (cafberiht.class_definition (get_cafberiht_array_t A)
            = well_formed ()) as Hclass.
    { apply class_definition_ok; [done|].
      destruct A; [simpl in Hn; lia|done]. }
    assert (cafberiht.get_core_by_index (get_cafberiht_array_t A) n
            = well_formed (base_subobject (Z.to_nat n))) as Haccess.
    { rewrite get_core_by_index_in_bounds
        by (rewrite size_get_cafberiht_array_t; lia).
      rewrite lookup_index_transform_values, tag_unsigned_integer by done.
      by apply operator_subscript_position. }
    split_and!; [done|by apply lookup_bases|done|].
    by rewrite member_access_well_formed.
  - intros (b & _ & _ & Hclass & _)%class_definition_repeated.
    exists b. split; [|intros e]; by apply member_access_ill_formed.
Qed.

Lemma positional_access_needs_distinct_witness :
  0 ≤ 2 < Z.of_nat (length [7; 3; 5])
  ∧ NoDup (core_types.of_uint64 <$> [7; 3; 5])
  ∧ cafberiht.member_access (get_cafberiht_array_t [7; 3; 5])
      (cafberiht.get_core_by_index (get_cafberiht_array_t [7; 3; 5]) 2)
    = well_formed (base_subobject 2)
  ∧ 0 ≤ 1 < Z.of_nat (length [4; 9; 4])
  ∧ ¬ NoDup (core_types.of_uint64 <$> [4; 9; 4])
  ∧ ∃ b : core_interface,
      cafberiht.member_access (get_cafberiht_array_t [4; 9; 4])
        (cafberiht.get_core_by_index (get_cafberiht_array_t [4; 9; 4]) 1)
      = ill_formed (duplicate_base_class b).
Proof.
  assert (0 ≤ 2 < Z.of_nat (length [7; 3; 5])) as Hn
    by (simpl; split; [discriminate | reflexivity]).
  assert (NoDup (core_types.of_uint64 <$> [7; 3; 5])) as Hdistinct
    by (apply (bool_decide_unpack _); vm_compute; exact I).
  assert (0 ≤ 1 < Z.of_nat (length [4; 9; 4])) as Hn'
    by (simpl; split; [discriminate | reflexivity]).
  assert (¬ NoDup (core_types.of_uint64 <$> [4; 9; 4])) as Hrepeated.
  { apply (bool_decide_unpack (¬ NoDup (core_types.of_uint64 <$> [4; 9; 4]))).
    vm_compute. exact I. }
  split; [exact Hn|]. split; [exact Hdistinct|].
  split; [|split; [exact Hn'|split; [exact Hrepeated|]]].
  - exact (proj2 (proj2 (proj2
             (proj1 (positional_access_needs_distinct [7; 3; 5] 2 Hn)
                Hdistinct)))).
  - destruct (proj2 (positional_access_needs_distinct [4; 9; 4] 1 Hn')
                Hrepeated) as (b & Hb & _).
    exists b. exact Hb.
Defined.

(** C4, as stated, fails: with the aggregator (0, 0) and [n = 1 < W = 2]
    positional access does not compile and yields no reference to the element
    at position 1: the container type names the base of [attn_q] twice, and
    the build stops at the class definition. *)
Lemma positional_access_duplicates_counterexample :
  0 ≤ 1 < Z.of_nat (length [0; 0])
  ∧ cafberiht.member_access (get_cafberiht_array_t [0; 0])
      (cafberiht.get_core_by_index (get_cafberiht_array_t [0; 0]) 1)
    = ill_formed (duplicate_base_class (Core_interface core_types.attn_q))
  ∧ cafberiht.member_access (get_cafberiht_array_t [0; 0])
      (cafberiht.get_core_by_index (get_cafberiht_array_t [0; 0]) 1)
    ≠ well_formed (base_subobject 1).
Proof.
  split; [simpl; split; [discriminate | reflexivity]|].
  split; [reflexivity | discriminate].
Qed.

(** ** The position query on a container *)

(** C2, as the code has it.  For every non-empty aggregator whose enumerators
    are pairwise distinct and every enumerator [e], [get_index_by_enum]
    compiles and returns: the loop ends within any fuel above the width, and
    the result is the position below the width whose entry is [e], which is
    the smallest and the only one, or 2^64 - 1 when no entry is [e].  An
    entry is compared as the source compares it, as the enumerator it
    encodes.  The query is a function of the container type and the
    enumerator alone.  For the empty aggregator, and for an aggregator with
    a repeated enumerator, the container type does not compile and the query
    returns nothing. *)
Theorem get_index_by_enum_on_container (A : list Z) (e : core_types)
    (fuel : nat) :
  Z.of_nat (length A) < 2 ^ 64 →
  (A ≠ [] → NoDup (core_types.of_uint64 <$> A) → (length A < fuel)%nat →
   ∃ r,
     cafberiht.member_access (get_cafberiht_array_t A)
       (well_formed (cafberiht.get_index_by_enum (get_cafberiht_array_t A) e))
     = well_formed (Some r)
     ∧ cafberiht.get_index_by_enum_from (get_cafberiht_array_t A) e fuel 0
       = Some r
     ∧ ((∃ i : nat, (i < length A)%nat ∧ r = Z.of_nat i
           ∧ core_types.of_uint64 (A !!! i) = e
           ∧ (∀ j : nat, (j < i)%nat → core_types.of_uint64 (A !!! j) ≠ e)
           ∧ (∀ j : nat, (j < length A)%nat →
                         core_types.of_uint64 (A !!! j) = e → j = i))
        ∨ (r = 2 ^ 64 - 1
           ∧ ∀ i : nat, (i < length A)%nat →
                        core_types.of_uint64 (A !!! i) ≠ e)))
  ∧ (A = [] →
     cafberiht.member_access (get_cafberiht_array_t A)
       (well_formed (cafberiht.get_index_by_enum (get_cafberiht_array_t A) e))
     = ill_formed
         (incomplete_type (printer_impl empty_cafberiht_bases_pack [])))
  ∧ (¬ NoDup (core_types.of_uint64 <$> A) →
     ∃ b : core_interface,
       cafberiht.member_access (get_cafberiht_array_t A)
         (well_formed
            (cafberiht.get_index_by_enum (get_cafberiht_array_t A) e))
       = ill_formed (duplicate_base_class b)).
Proof.
  intros Hfits. split_and!.
  - intros Hne Hdistinct Hfuel.
    destruct (get_index_by_enum_result A e Hfits) as (r & Hr & Hanswer).
    destruct (get_index_by_enum_from_spec A e Hfits fuel 0)
      as (r' & Hr' & Hanswer'); [lia..| |].
    { intros j Hj. lia. }
    assert (∀ i j : nat, (i < length A)%nat → (j < length A)%nat →
              core_types.of_uint64 (A !!! i) = e →
              core_types.of_uint64 (A !!! j) = e → j = i) as Honly.
    { intros i j Hi Hj Hati Hatj.
      apply (NoDup_lookup _ j i e Hdistinct).
      - rewrite <- Hatj. by apply lookup_decoded.
      - rewrite <- Hati. by apply lookup_decoded. }
    exists r. split_and!.
    + rewrite member_access_well_formed by (by apply class_definition_ok).
      by rewrite Hr.
    + change (Z.of_nat 0) with 0 in Hr'. rewrite Hr'. f_equal.
      destruct Hanswer as [(i & Hi & -> & Hat & Hmin)|[-> Hnone]],
               Hanswer' as [(i' & Hi' & -> & Hat' & Hmin')|[-> Hnone']].
      * f_equal. by apply (Honly i i').
      * by destruct (Hnone' i).
      * by destruct (Hnone i').
      * done.
    + destruct Hanswer as [(i & Hi & -> & Hat & Hmin)|[-> Hnone]].
      * left. exists i. split_and!; [done..|]. intros j Hj Hatj.
        by apply (Honly i j).
      * by right.
  - intros ->. reflexivity.
  - intros (b & _ & _ & Hclass & _)%class_definition_repeated.
    exists b. by apply member_access_ill_formed.
Qed.

Lemma get_index_by_enum_on_container_witness :
  Z.of_nat (length [7; 5; 3]) < 2 ^ 64 ∧ [7; 5; 3] ≠ @nil Z
  ∧ NoDup (core_types.of_uint64 <$> [7; 5; 3]) ∧ (length [7; 5; 3] < 4)%nat
  ∧ (∃ r, cafberiht.member_access (get_cafberiht_array_t [7; 5; 3])
            (well_formed
               (cafberiht.get_index_by_enum (get_cafberiht_array_t [7; 5; 3])
                  core_types.attn_output))
          = well_formed (Some r))
  ∧ ¬ NoDup (core_types.of_uint64 <$> [3; 5; 3])
  ∧ ∃ b, cafberiht.member_access (get_cafberiht_array_t [3; 5; 3])
           (well_formed
              (cafberiht.get_index_by_enum (get_cafberiht_array_t [3; 5; 3])
                 core_types.attn_output))
         = ill_formed (duplicate_base_class b).
Proof.
  assert (Z.of_nat (length [7; 5; 3]) < 2 ^ 64) as Hfits by reflexivity.
  assert ([7; 5; 3] ≠ @nil Z) as Hne by discriminate.
  assert (NoDup (core_types.of_uint64 <$> [7; 5; 3])) as Hdistinct
    by (apply (bool_decide_unpack _); vm_compute; exact I).
  assert (length [7; 5; 3] < 4)%nat as Hfuel by (simpl; lia).
  assert (Z.of_nat (length [3; 5; 3]) < 2 ^ 64) as Hfits' by reflexivity.
  assert (¬ NoDup (core_types.of_uint64 <$> [3; 5; 3])) as Hrepeated.
  { apply (bool_decide_unpack (¬ NoDup (core_types.of_uint64 <$> [3; 5; 3]))).
    vm_compute. exact I. }
  split; [exact Hfits|]. split; [exact Hne|]. split; [exact Hdistinct|].
  split; [exact Hfuel|]. split; [|split; [exact Hrepeated|]].
  - destruct (proj1 (get_index_by_enum_on_container [7; 5; 3]
                       core_types.attn_output 4 Hfits)
                Hne Hdistinct Hfuel) as (r & Hr & _).
    exists r. exact Hr.
  - exact (proj2 (proj2 (get_index_by_enum_on_container [3; 5; 3]
                           core_types.attn_output 4 Hfits')) Hrepeated).
Defined.

(** C2, as stated, fails.  For the aggregator (3, 5, 3) and the enumerator
    [attn_output], of value 3, the query does not return the smallest
    position 0: the container type names the base of [attn_output] twice and
    does not compile.  For the empty aggregator the query does not return
    the sentinel: the container type fails the [empty_cafberiht_bases_pack]
    check. *)
Lemma get_index_by_enum_counterexample :
  (cafberiht.member_access (get_cafberiht_array_t [3; 5; 3])
     (well_formed
        (cafberiht.get_index_by_enum (get_cafberiht_array_t [3; 5; 3])
           core_types.attn_output))
   = ill_formed (duplicate_base_class (Core_interface core_types.attn_output))
   ∧ cafberiht.member_access (get_cafberiht_array_t [3; 5; 3])
       (well_formed
          (cafberiht.get_index_by_enum (get_cafberiht_array_t [3; 5; 3])
             core_types.attn_output))
     ≠ well_formed (Some 0))
  ∧ (cafberiht.member_access (get_cafberiht_array_t [])
       (well_formed
          (cafberiht.get_index_by_enum (get_cafberiht_array_t [])
             core_types.attn_output))
     = ill_formed
         (incomplete_type (printer_impl empty_cafberiht_bases_pack []))
     ∧ cafberiht.member_access (get_cafberiht_array_t [])
         (well_formed
            (cafberiht.get_index_by_enum (get_cafberiht_array_t [])
               core_types.attn_output))
       ≠ well_formed (Some (2 ^ 64 - 1))).
Proof.
  split; (split; [reflexivity | discriminate]).
Qed.

(** ** Further properties of members used on a container *)

(** X3. Duplicated key: when two different positions of the aggregator
    encode the same enumerator, tag-keyed access does not compile, at any
    enumerator: the build stops at the class definition, which names twice
    the element type of an enumerator found at two positions, before any
    subscript is resolved. *)
Theorem get_core_by_enum_duplicated (A : list Z) (i j : nat)
    (e : core_types) :
  i ≠ j → (i < length A)%nat → (j < length A)%nat →
  core_types.of_uint64 (A !!! i) = core_types.of_uint64 (A !!! j) →
  ∃ (b : core_interface) (i' j' : nat),
    cafberiht.member_access (get_cafberiht_array_t A)
      (cafberiht.get_core_by_enum (get_cafberiht_array_t A) e)
    = ill_formed (duplicate_base_class b)
    ∧ cafberiht.member_access (get_cafberiht_array_t A)
        (cafberiht.operator_subscript (get_cafberiht_array_t A)
           (tag (enumerator e)))
      = ill_formed (duplicate_base_class b)
    ∧ i' ≠ j' ∧ (i' < length A)%nat ∧ (j' < length A)%nat
    ∧ b = Core_interface (core_types.of_uint64 (A !!! i'))
    ∧ core_types.of_uint64 (A !!! i') = core_types.of_uint64 (A !!! j').
Proof.
  intros Hne Hi Hj Heq.
  destruct (class_definition_repeated A) as (b & i' & j' & Hclass & Hrest).
  { by apply (repeated_enumerator_not_distinct A i j). }
  exists b, i', j'.
  split; [|split]; [by apply member_access_ill_formed..|done].
Qed.

Lemma get_core_by_enum_duplicated_witness :
  0%nat ≠ 2%nat ∧ (0 < length [4; 9; 4])%nat ∧ (2 < length [4; 9; 4])%nat
  ∧ ∃ b, cafberiht.member_access (get_cafberiht_array_t [4; 9; 4])
           (cafberiht.get_core_by_enum (get_cafberiht_array_t [4; 9; 4])
              core_types.attn_norm)
         = ill_formed (duplicate_base_class b).
Proof.
  assert (0%nat ≠ 2%nat) as Hne by discriminate.
  assert (0 < length [4; 9; 4])%nat as Hi by (simpl; lia).
  assert (2 < length [4; 9; 4])%nat as Hj by (simpl; lia).
  split; [exact Hne|]. split; [exact Hi|]. split; [exact Hj|].
  destruct (get_core_by_enum_duplicated [4; 9; 4] 0 2 core_types.attn_norm
              Hne Hi Hj eq_refl) as (b & _ & _ & Hb & _).
  exists b. exact Hb.
Defined.

(** X5. Positional access never refers to another element: whenever
    [get_core_by_index<n>] compiles on a container built from an aggregator,
    [n] is below the width, the enumerators of the aggregator are pairwise
    distinct, and the reference designates the base at position [n], the
    element of the aggregator's [n]-th enumerator. *)
Theorem get_core_by_index_sound (A : list Z) (n : Z) (r : reference) :
  0 ≤ n →
  cafberiht.member_access (get_cafberiht_array_t A)
    (cafberiht.get_core_by_index (get_cafberiht_array_t A) n)
  = well_formed r →
  n < Z.of_nat (length A)
  ∧ NoDup (core_types.of_uint64 <$> A)
  ∧ r = base_subobject (Z.to_nat n)
  ∧ cafberiht.bases (get_cafberiht_array_t A) !! Z.to_nat n
    = Some (Core_interface (core_types.of_uint64 (A !!! Z.to_nat n))).
Proof.
  intros H0 [Hclass Haccess]%member_access_inv.
  pose proof (class_definition_well_formed_inv _ Hclass) as [_ Hdistinct].
  apply NoDup_bases in Hdistinct.
  destruct (Z.lt_ge_cases n (Z.of_nat (length A))) as [Hn|Hn].
  - assert (Z.to_nat n < length A)%nat as Hlt by lia.
    rewrite get_core_by_index_well_formed in Haccess;
      [|done|apply bases_representable_get_cafberiht_array_t
       |rewrite size_get_cafberiht_array_t; lia].
    injection Haccess as <-. split_and!; [done..|]. by apply lookup_bases.
  - unfold cafberiht.get_core_by_index in Haccess.
    rewrite size_get_cafberiht_array_t in Haccess.
    by rewrite (proj2 (Z.ltb_ge n _)) in Haccess by lia.
Qed.

Lemma get_core_by_index_sound_witness :
  0 ≤ 2
  ∧ cafberiht.member_access (get_cafberiht_array_t [7; 5; 3])
      (cafberiht.get_core_by_index (get_cafberiht_array_t [7; 5; 3]) 2)
    = well_formed (base_subobject 2)
  ∧ 2 < Z.of_nat (length [7; 5; 3])
  ∧ NoDup (core_types.of_uint64 <$> [7; 5; 3]).
Proof.
  assert (0 ≤ 2) as H0 by discriminate.
  assert (cafberiht.member_access (get_cafberiht_array_t [7; 5; 3])
            (cafberiht.get_core_by_index (get_cafberiht_array_t [7; 5; 3]) 2)
          = well_formed (base_subobject 2)) as Haccess by reflexivity.
  split; [exact H0|]. split; [exact Haccess|].
  destruct (get_core_by_index_sound [7; 5; 3] 2 _ H0 Haccess)
    as (Hn & Hdistinct & _).
  split; [exact Hn | exact Hdistinct].
Defined.
